(** * Particle Swarm Optimisation on the Michalewicz function

    A shallow embedding of [PSO-michalewicz.py].  Python floats are
    idealised as mathematical reals ([R]); numpy arrays of floats are lists
    of reals, with element-wise operations on arrays of one shape; a numpy
    [nan] (the mean of an empty array) is [None].  The implicit global
    random generator is made explicit: every call of [np.random.uniform]
    receives the unit draws it consumes as a function from the coordinate
    index to a real.  Counts ([NUM_PARTICLES], [NUM_DIMENSIONS],
    [MAX_ITERATIONS]) are naturals.  Plots, printing, timing and the CSV
    file are left out. *)

From Stdlib Require Import Reals Lra Lia List Bool Arith Permutation NArith.
From Stdlib Require Ascii String.
Import String.StringSyntax.
Delimit Scope string_scope with string.
Import ListNotations.
Open Scope R_scope.

(** ** numpy arrays *)

Definition vec := list R.

Fixpoint map2 {A B C : Type} (f : A -> B -> C) (a : list A) (b : list B) : list C :=
  match a, b with
  | x :: a', y :: b' => f x y :: map2 f a' b'
  | _, _ => []
  end.

(** [a + b], [a - b], [a * b] on arrays of one shape, [c * a] with a scalar. *)
Definition vadd (a b : vec) : vec := map2 Rplus a b.
Definition vsub (a b : vec) : vec := map2 Rminus a b.
Definition vmul (a b : vec) : vec := map2 Rmult a b.
Definition vscale (c : R) (a : vec) : vec := map (Rmult c) a.

(** [np.zeros(n)] *)
Definition np_zeros (n : nat) : vec := repeat 0 n.

(** [np.clip(a, lo, hi)] is [minimum(hi, maximum(a, lo))]. *)
Definition clip1 (lo hi x : R) : R := Rmin (Rmax x lo) hi.
Definition np_clip (a : vec) (lo hi : R) : vec := map (clip1 lo hi) a.

(** [np.random.uniform(low, high, size)]: [low + (high - low) * u] for each
    of [size] unit draws [u]. *)
Definition np_uniform (low high : R) (size : nat) (u : nat -> R) : vec :=
  map (fun k => low + (high - low) * u k) (seq 0 size).

(** [np.linalg.norm(v)] *)
Definition sum_list (l : list R) : R := fold_right Rplus 0 l.
Definition np_linalg_norm (v : vec) : R := sqrt (sum_list (map (fun x => x * x) v)).

(** [np.mean(l)]; the mean of an empty list is [nan]. *)
Definition np_mean (l : list R) : option R :=
  match l with
  | [] => None
  | _ => Some (sum_list l / INR (length l))
  end.

(** ** The objective *)

(** The body of [for i in range(n)] in [michalewicz], from index [i] on. *)
Fixpoint michalewicz_loop (m : nat) (x : vec) (i : nat) (total : R) : R :=
  match x with
  | [] => total
  | xi :: rest =>
      let sin_xi := sin xi in
      let sin_term := sin ((INR (i + 1) * xi ^ 2) / PI) in
      michalewicz_loop m rest (S i) (total + sin_xi * sin_term ^ (2 * m))
  end.

Definition michalewicz_m (x : vec) (m : nat) : R := - michalewicz_loop m x 0 0.
Definition michalewicz (x : vec) : R := michalewicz_m x 10.

(** ** Parameters *)

Record Config := mkConfig {
  NUM_PARTICLES : nat;
  NUM_DIMENSIONS : nat;
  MAX_ITERATIONS : nat;
  INERTIA_WEIGHT : R;
  COGNITIVE_CONST : R;
  SOCIAL_CONST : R;
  X_MIN : R;
  X_MAX : R;
  GLOBAL_MINIMUM : R;
  TOLERANCE : R
}.

(** The constants of the script. *)
Definition script_config : Config :=
  {| NUM_PARTICLES := 100;
     NUM_DIMENSIONS := 5;
     MAX_ITERATIONS := 1000;
     INERTIA_WEIGHT := 1 / 10;
     COGNITIVE_CONST := 2;
     SOCIAL_CONST := 2;
     X_MIN := 0;
     X_MAX := PI;
     GLOBAL_MINIMUM := - (4687658 / 1000000);
     TOLERANCE := 1 / 1000 |}.

(** ** Particles *)

Record Particle := mkParticle {
  position : vec;
  velocity : vec;
  best_position : vec;
  best_value : R
}.

Inductive exn := ValueError | IndexError.

Inductive result (A : Type) :=
| Ok (a : A)
| Raise (e : exn).
Arguments Ok {A} a.
Arguments Raise {A} e.

Section PSO.

Variable cfg : Config.
Variable objective : vec -> R.

(** [Particle.__init__]; [u] are the unit draws of the position sample. *)
Definition Particle_init (u : nat -> R) : Particle :=
  let position := np_uniform (X_MIN cfg) (X_MAX cfg) (NUM_DIMENSIONS cfg) u in
  {| position := position;
     velocity := np_zeros (NUM_DIMENSIONS cfg);
     best_position := position;
     best_value := objective position |}.

(** [Particle.update_velocity]; [u1], [u2] are the unit draws of [r1], [r2]. *)
Definition update_velocity (p : Particle) (global_best_position : vec)
    (u1 u2 : nat -> R) : Particle :=
  let r1 := np_uniform 0 1 (NUM_DIMENSIONS cfg) u1 in
  let r2 := np_uniform 0 1 (NUM_DIMENSIONS cfg) u2 in
  let cognitive_component :=
    vmul (vscale (COGNITIVE_CONST cfg) r1) (vsub (best_position p) (position p)) in
  let social_component :=
    vmul (vscale (SOCIAL_CONST cfg) r2) (vsub global_best_position (position p)) in
  {| position := position p;
     velocity := vadd (vadd (vscale (INERTIA_WEIGHT cfg) (velocity p))
                            cognitive_component)
                      social_component;
     best_position := best_position p;
     best_value := best_value p |}.

(** [Particle.update_position] *)
Definition update_position (p : Particle) : Particle :=
  let position1 := vadd (position p) (velocity p) in
  let position2 := np_clip position1 (X_MIN cfg) (X_MAX cfg) in
  let value := objective position2 in
  if Rlt_dec value (best_value p)
  then {| position := position2;
          velocity := velocity p;
          best_position := position2;
          best_value := value |}
  else {| position := position2;
          velocity := velocity p;
          best_position := best_position p;
          best_value := best_value p |}.

(** ** The swarm *)

(** [min(l, key=key)]: the first element with the least key; raises
    [ValueError] on an empty list. *)
Fixpoint min_from {A : Type} (key : A -> R) (best : A) (l : list A) : A :=
  match l with
  | [] => best
  | x :: rest => min_from key (if Rlt_dec (key x) (key best) then x else best) rest
  end.

Definition py_min {A : Type} (key : A -> R) (l : list A) : result A :=
  match l with
  | [] => Raise ValueError
  | x :: rest => Ok (min_from key x rest)
  end.

(** [l[-1]]: raises [IndexError] on an empty list. *)
Fixpoint py_last {A : Type} (l : list A) : result A :=
  match l with
  | [] => Raise IndexError
  | [x] => Ok x
  | _ :: rest => py_last rest
  end.

(** The draws one iteration consumes: for the particle at index [i], the unit
    draws of its [r1] and of its [r2]. *)
Definition step_draws := nat -> (nat -> R) * (nat -> R).

(** One particle's share of the [for particle in swarm] loop. *)
Definition update_particle (global_best_position : vec)
    (d : (nat -> R) * (nat -> R)) (p : Particle) : Particle :=
  update_position (update_velocity p global_best_position (fst d) (snd d)).

(** [for particle in swarm: ...], from the particle at index [i] on. *)
Fixpoint for_particles (global_best_position : vec) (d : step_draws) (i : nat)
    (swarm : list Particle) : list Particle :=
  match swarm with
  | [] => []
  | particle :: rest =>
      update_particle global_best_position (d i) particle
        :: for_particles global_best_position d (S i) rest
  end.

(** The pairwise distances, in the order of the two nested [range] loops. *)
Definition pair_distances (positions : list vec) : list R :=
  flat_map
    (fun i =>
       map (fun j => np_linalg_norm (vsub (nth i positions []) (nth j positions [])))
           (seq (i + 1) (NUM_PARTICLES cfg - (i + 1))))
    (seq 0 (NUM_PARTICLES cfg)).

Definition diversity (swarm : list Particle) : option R :=
  np_mean (pair_distances (map position swarm)).

Record State := mkState {
  swarm : list Particle;
  global_best_position : vec;
  global_best_value : R;
  best_values_history : list R;
  avg_values_history : list (option R);
  diversity_history : list (option R);
  iterations : nat;
  global_min_found : bool
}.

(** The swarm after the [for] loop of one iteration, before the global best
    is recomputed. *)
Definition mid_step (d : step_draws) (st : State) : list Particle :=
  for_particles (global_best_position st) d 0 (swarm st).

(** The recomputation of the global best from the updated swarm. *)
Definition recompute_global_best (sw : list Particle) (gbp : vec) (gbv : R)
    : result (vec * R) :=
  match py_min best_value sw with
  | Raise e => Raise e
  | Ok current_best_particle =>
      if Rlt_dec (best_value current_best_particle) gbv
      then Ok (best_position current_best_particle, best_value current_best_particle)
      else Ok (gbp, gbv)
  end.

(** The body of the [while] loop up to the stop criterion. *)
Definition iteration_body (d : step_draws) (st : State) : result State :=
  let sw := mid_step d st in
  match recompute_global_best sw (global_best_position st) (global_best_value st) with
  | Raise e => Raise e
  | Ok (gbp, gbv) =>
      Ok {| swarm := sw;
            global_best_position := gbp;
            global_best_value := gbv;
            best_values_history := best_values_history st ++ [gbv];
            avg_values_history :=
              avg_values_history st ++ [np_mean (map best_value sw)];
            diversity_history := diversity_history st ++ [diversity sw];
            iterations := iterations st;
            global_min_found := global_min_found st |}
  end.

Definition stop_criterion (st : State) : bool :=
  if Rle_dec (Rabs (global_best_value st - GLOBAL_MINIMUM cfg)) (TOLERANCE cfg)
  then true else false.

Definition set_found (st : State) : State :=
  {| swarm := swarm st;
     global_best_position := global_best_position st;
     global_best_value := global_best_value st;
     best_values_history := best_values_history st;
     avg_values_history := avg_values_history st;
     diversity_history := diversity_history st;
     iterations := iterations st;
     global_min_found := true |}.

Definition next_iteration (st : State) : State :=
  {| swarm := swarm st;
     global_best_position := global_best_position st;
     global_best_value := global_best_value st;
     best_values_history := best_values_history st;
     avg_values_history := avg_values_history st;
     diversity_history := diversity_history st;
     iterations := S (iterations st);
     global_min_found := global_min_found st |}.

(** [while iterations < MAX_ITERATIONS and not global_min_found], by recursion
    on [remaining], the number of iterations left before [iterations] reaches
    [MAX_ITERATIONS]; [draws k] are the draws of the iteration that starts
    with [iterations = k]. *)
Fixpoint while_loop (remaining : nat) (draws : nat -> step_draws) (st : State)
    : result State :=
  match remaining with
  | O => Ok st
  | S remaining' =>
      match iteration_body (draws (iterations st)) st with
      | Raise e => Raise e
      | Ok st1 =>
          if stop_criterion st1
          then Ok (set_found st1)
          else while_loop remaining' draws (next_iteration st1)
      end
  end.

(** The swarm and the global best before the loop. *)
Definition initial_swarm (init_draws : nat -> nat -> R) : list Particle :=
  map (fun k => Particle_init (init_draws k)) (seq 0 (NUM_PARTICLES cfg)).

Definition initial_state (init_draws : nat -> nat -> R) : result State :=
  let sw := initial_swarm init_draws in
  match py_min best_value sw with
  | Raise e => Raise e
  | Ok global_best_particle =>
      Ok {| swarm := sw;
            global_best_position := best_position global_best_particle;
            global_best_value := best_value global_best_particle;
            best_values_history := [];
            avg_values_history := [];
            diversity_history := [];
            iterations := 0;
            global_min_found := false |}
  end.

(** The state when the [while] loop is left. *)
Definition pso_loop (init_draws : nat -> nat -> R) (draws : nat -> step_draws)
    : result State :=
  match initial_state init_draws with
  | Raise e => Raise e
  | Ok st0 => while_loop (MAX_ITERATIONS cfg - iterations st0) draws st0
  end.

(** The part of the [results] row that the optimiser determines. *)
Record Results := mkResults {
  res_best_value : R;
  res_iterations : nat;
  res_final_avg : option R;
  res_final_diversity : option R
}.

Definition build_results (st : State) : result Results :=
  match py_last (avg_values_history st) with
  | Raise e => Raise e
  | Ok final_avg =>
      match py_last (diversity_history st) with
      | Raise e => Raise e
      | Ok final_div =>
          Ok {| res_best_value := global_best_value st;
                res_iterations := iterations st + 1;
                res_final_avg := final_avg;
                res_final_diversity := final_div |}
      end
  end.

Definition pso (init_draws : nat -> nat -> R) (draws : nat -> step_draws)
    : result Results :=
  match pso_loop init_draws draws with
  | Raise e => Raise e
  | Ok st => build_results st
  end.

End PSO.

(** ** Sequences of particle updates *)

Inductive particle_op :=
| UpdateVelocity (global_best_position : vec) (u1 u2 : nat -> R)
| UpdatePosition.

Definition apply_op (cfg : Config) (objective : vec -> R) (p : Particle)
    (o : particle_op) : Particle :=
  match o with
  | UpdateVelocity g u1 u2 => update_velocity cfg p g u1 u2
  | UpdatePosition => update_position cfg objective p
  end.

(** The particle after the calls [ops], made from left to right. *)
Definition apply_ops (cfg : Config) (objective : vec -> R) (ops : list particle_op)
    (p : Particle) : Particle :=
  fold_left (apply_op cfg objective) ops p.

(** ** Predicates on particles and swarms *)

(** A particle whose arrays have the configured dimension. *)
Definition well_shaped (cfg : Config) (p : Particle) : Prop :=
  length (position p) = NUM_DIMENSIONS cfg /\
  length (velocity p) = NUM_DIMENSIONS cfg /\
  length (best_position p) = NUM_DIMENSIONS cfg.

(** The personal-best record agrees with the objective. *)
Definition consistent (objective : vec -> R) (p : Particle) : Prop :=
  best_value p = objective (best_position p).

(** Every coordinate lies between the bounds. *)
Definition in_bounds (cfg : Config) (v : vec) : Prop :=
  Forall (fun x => X_MIN cfg <= x <= X_MAX cfg) v.

(** A particle inside the search box whose record is consistent. *)
Definition in_box (cfg : Config) (objective : vec -> R) (p : Particle) : Prop :=
  well_shaped cfg p /\ in_bounds cfg (position p) /\
  in_bounds cfg (best_position p) /\ consistent objective p.

(** [v <= min(p.best_value for p in sw)] *)
Definition le_all_bests (v : R) (sw : list Particle) : Prop :=
  forall p : Particle, In p sw -> v <= best_value p.

(** [v == min(p.best_value for p in sw)] *)
Definition is_min_best (v : R) (sw : list Particle) : Prop :=
  le_all_bests v sw /\ exists p : Particle, In p sw /\ best_value p = v.

(** [l[i+1] <= l[i]] for all [i]. *)
Definition nonincreasing (l : list R) : Prop :=
  forall i : nat, (S i < length l)%nat -> nth (S i) l 0 <= nth i l 0.

(** What holds of the swarm whenever the loop is between two iterations. *)
Definition synchronized (st : State) : Prop :=
  swarm st <> [] /\ is_min_best (global_best_value st) (swarm st).

(** The states of a run between the statements of the [while] loop: the state
    before the loop, the state after the body of an iteration, and the states
    after [global_min_found = True] or [iterations += 1]. *)
Inductive reachable (cfg : Config) (objective : vec -> R)
    (init_draws : nat -> nat -> R) : State -> Prop :=
| reach_init (st0 : State) :
    initial_state cfg objective init_draws = Ok st0 ->
    reachable cfg objective init_draws st0
| reach_body (st st1 : State) (d : step_draws) :
    reachable cfg objective init_draws st ->
    iteration_body cfg objective d st = Ok st1 ->
    reachable cfg objective init_draws st1
| reach_found (st : State) :
    reachable cfg objective init_draws st ->
    reachable cfg objective init_draws (set_found st)
| reach_next (st : State) :
    reachable cfg objective init_draws st ->
    reachable cfg objective init_draws (next_iteration st).

(** ** A run of the script

    One particle is sampled at [(0, 0, 0, pi/2, 0)], the other 99 at the
    origin; every draw of the first iteration is [1/4]. *)

Definition leader_init_draws : nat -> nat -> R :=
  fun k i => match k, i with 0%nat, 3%nat => 1 / 2 | _, _ => 0 end.

Definition quarter_step_draws : step_draws :=
  fun _ => (fun _ => 1 / 4, fun _ => 1 / 4).

Definition leader_particle : Particle :=
  {| position := [0; 0; 0; PI / 2; 0];
     velocity := [0; 0; 0; 0; 0];
     best_position := [0; 0; 0; PI / 2; 0];
     best_value := 0 |}.

Definition origin_particle : Particle :=
  {| position := [0; 0; 0; 0; 0];
     velocity := [0; 0; 0; 0; 0];
     best_position := [0; 0; 0; 0; 0];
     best_value := 0 |}.

Definition leader_state : State :=
  {| swarm := leader_particle :: repeat origin_particle 99;
     global_best_position := [0; 0; 0; PI / 2; 0];
     global_best_value := 0;
     best_values_history := [];
     avg_values_history := [];
     diversity_history := [];
     iterations := 0;
     global_min_found := false |}.

(** ** Other configurations

    The constants of the script with one of them changed. *)

(** One particle. *)
Definition single_particle_config : Config :=
  {| NUM_PARTICLES := 1;
     NUM_DIMENSIONS := 5;
     MAX_ITERATIONS := 1000;
     INERTIA_WEIGHT := 1 / 10;
     COGNITIVE_CONST := 2;
     SOCIAL_CONST := 2;
     X_MIN := 0;
     X_MAX := PI;
     GLOBAL_MINIMUM := - (4687658 / 1000000);
     TOLERANCE := 1 / 1000 |}.

(** Bounds in the wrong order. *)
Definition reversed_bounds_config : Config :=
  {| NUM_PARTICLES := 100;
     NUM_DIMENSIONS := 5;
     MAX_ITERATIONS := 1000;
     INERTIA_WEIGHT := 1 / 10;
     COGNITIVE_CONST := 2;
     SOCIAL_CONST := 2;
     X_MIN := PI;
     X_MAX := 0;
     GLOBAL_MINIMUM := - (4687658 / 1000000);
     TOLERANCE := 1 / 1000 |}.


(** No iteration. *)
Definition zero_iterations_config : Config :=
  {| NUM_PARTICLES := 100;
     NUM_DIMENSIONS := 5;
     MAX_ITERATIONS := 0;
     INERTIA_WEIGHT := 1 / 10;
     COGNITIVE_CONST := 2;
     SOCIAL_CONST := 2;
     X_MIN := 0;
     X_MAX := PI;
     GLOBAL_MINIMUM := - (4687658 / 1000000);
     TOLERANCE := 1 / 1000 |}.

(** All three coefficients zero. *)
Definition zero_coefficients_config : Config :=
  {| NUM_PARTICLES := 100;
     NUM_DIMENSIONS := 5;
     MAX_ITERATIONS := 1000;
     INERTIA_WEIGHT := 0;
     COGNITIVE_CONST := 0;
     SOCIAL_CONST := 0;
     X_MIN := 0;
     X_MAX := PI;
     GLOBAL_MINIMUM := - (4687658 / 1000000);
     TOLERANCE := 1 / 1000 |}.

(** ** Pairwise distances, by recursion on the list *)

Fixpoint pairs_from (l : list vec) : list R :=
  match l with
  | [] => []
  | x :: rest => map (fun y => np_linalg_norm (vsub x y)) rest ++ pairs_from rest
  end.

(** ** The [for] loop in another order *)

(** [swarm[i]] updated in place by [f]; the particle objects are mutated, the
    list keeps its order. *)
Fixpoint update_at (i : nat) (f : Particle -> Particle) (sw : list Particle)
    : list Particle :=
  match sw, i with
  | [], _ => []
  | p :: rest, O => f p :: rest
  | p :: rest, S i' => p :: update_at i' f rest
  end.

(** [for i in order: swarm[i].update_velocity(...); swarm[i].update_position()]:
    the [for] loop of an iteration with the particles visited in the order
    [order]; the particle at index [i] consumes the draws [d i]. *)
Definition for_particles_in_order (cfg : Config) (objective : vec -> R)
    (global_best_position : vec) (d : step_draws) (order : list nat)
    (sw : list Particle) : list Particle :=
  fold_left
    (fun sw' i =>
       update_at i (update_particle cfg objective global_best_position (d i)) sw')
    order sw.

(** The body of an iteration with that [for] loop. *)
Definition iteration_body_in_order (cfg : Config) (objective : vec -> R)
    (order : list nat) (d : step_draws) (st : State) : result State :=
  let sw := for_particles_in_order cfg objective (global_best_position st) d order
              (swarm st) in
  match recompute_global_best sw (global_best_position st) (global_best_value st) with
  | Raise e => Raise e
  | Ok (gbp, gbv) =>
      Ok {| swarm := sw;
            global_best_position := gbp;
            global_best_value := gbv;
            best_values_history := best_values_history st ++ [gbv];
            avg_values_history :=
              avg_values_history st ++ [np_mean (map best_value sw)];
            diversity_history := diversity_history st ++ [diversity cfg sw];
            iterations := iterations st;
            global_min_found := global_min_found st |}
  end.

(** ** Bookkeeping of a run *)

(** [abs(v - GLOBAL_MINIMUM) <= TOLERANCE] *)
Definition within_tolerance (cfg : Config) (v : R) : Prop :=
  Rabs (v - GLOBAL_MINIMUM cfg) <= TOLERANCE cfg.

(** [l[i+1] <= l[i]] for all [i], for a list without [nan]. *)
Definition nonincreasing_means (l : list (option R)) : Prop :=
  forall i : nat, (S i < length l)%nat ->
    exists a b : R, nth i l None = Some a /\ nth (S i) l None = Some b /\ b <= a.

(** ** The convergence analysis *)

(** [[abs(h[i+1] - h[i]) for i in range(len(h)-1)]], the changes of the best
    value that the convergence analysis plots. *)
Definition fitness_diffs (h : list R) : list R :=
  map (fun i => Rabs (nth (i + 1) h 0 - nth i h 0)) (seq 0 (length h - 1)).

(** The same changes by recursion on the list. *)
Fixpoint consecutive_diffs (h : list R) : list R :=
  match h with
  | a :: (b :: _) as rest => Rabs (b - a) :: consecutive_diffs rest
  | _ => []
  end.

(** ** Configurations with another tolerance *)

(** A tolerance below zero. *)
Definition negative_tolerance_config : Config :=
  {| NUM_PARTICLES := 100;
     NUM_DIMENSIONS := 5;
     MAX_ITERATIONS := 1000;
     INERTIA_WEIGHT := 1 / 10;
     COGNITIVE_CONST := 2;
     SOCIAL_CONST := 2;
     X_MIN := 0;
     X_MAX := PI;
     GLOBAL_MINIMUM := - (4687658 / 1000000);
     TOLERANCE := - (1 / 1000) |}.

(** A tolerance wider than the range of the objective. *)
Definition wide_tolerance_config : Config :=
  {| NUM_PARTICLES := 100;
     NUM_DIMENSIONS := 5;
     MAX_ITERATIONS := 1000;
     INERTIA_WEIGHT := 1 / 10;
     COGNITIVE_CONST := 2;
     SOCIAL_CONST := 2;
     X_MIN := 0;
     X_MAX := PI;
     GLOBAL_MINIMUM := - (4687658 / 1000000);
     TOLERANCE := 10 |}.

(** ** The run number in the results file *)

(** [c.isdigit()] for an ASCII character [c]. *)
Definition is_ascii_digit (c : Ascii.ascii) : bool :=
  andb (48 <=? Ascii.nat_of_ascii c)%nat (Ascii.nat_of_ascii c <=? 57)%nat.

Fixpoint all_digits (s : String.string) : bool :=
  match s with
  | String.EmptyString => true
  | String.String c rest => andb (is_ascii_digit c) (all_digits rest)
  end.

(** [s.isdigit()] for a string of ASCII characters: not empty, digits only. *)
Definition py_isdigit (s : String.string) : bool :=
  match s with
  | String.EmptyString => false
  | _ => all_digits s
  end.

(** [int(s)] for a string of decimal digits, from the value [acc] of the
    digits already read. *)
Fixpoint py_int_from (acc : N) (s : String.string) : N :=
  match s with
  | String.EmptyString => acc
  | String.String c rest =>
      py_int_from (10 * acc + (N.of_nat (Ascii.nat_of_ascii c) - 48)) rest
  end.

Definition py_int (s : String.string) : N := py_int_from 0 s.

(** [max(x :: l)] *)
Definition py_max (x : N) (l : list N) : N := fold_left N.max l x.

(** The run number of the results row.  [file] is [None] when
    [wyniki_pso.csv] does not exist, and otherwise the values of the column
    ['Numer uruchomienia'] of its rows, as ASCII strings. *)
Definition next_run_number (file : option (list String.string)) : N :=
  match file with
  | None => 1
  | Some column =>
      let run_numbers := map py_int (filter py_isdigit column) in
      match run_numbers with
      | [] => 1
      | x :: rest => py_max x rest + 1
      end
  end.

(** ** Bounds on the velocity *)

(** The draws of an iteration lie in [0,1), as [np.random.uniform(0, 1, n)]
    gives them. *)
Definition unit_draws (d : step_draws) : Prop :=
  forall k i : nat, 0 <= fst (d k) i < 1 /\ 0 <= snd (d k) i < 1.

(** Every coordinate of the velocity is at most [b] in absolute value. *)
Definition velocity_within (b : R) (p : Particle) : Prop :=
  Forall (fun v => Rabs v <= b) (velocity p).

(** [(c1 + c2) * (X_MAX - X_MIN) / (1 - |w|)] *)
Definition velocity_bound (cfg : Config) : R :=
  (COGNITIVE_CONST cfg + SOCIAL_CONST cfg) * (X_MAX cfg - X_MIN cfg)
  / (1 - Rabs (INERTIA_WEIGHT cfg)).

(** * Properties *)

(** ** Arrays *)

Lemma length_map2 {A B C : Type} (f : A -> B -> C) (a : list A) (b : list B) :
  length (map2 f a b) = Nat.min (length a) (length b).
Proof.
  revert b; induction a as [|x a IH]; intros [|y b]; simpl; auto.
Qed.

Lemma nth_map2 {A B C : Type} (f : A -> B -> C) (a : list A) (b : list B)
    (i : nat) (da : A) (db : B) (dc : C) :
  (i < length a)%nat -> (i < length b)%nat ->
  nth i (map2 f a b) dc = f (nth i a da) (nth i b db).
Proof.
  revert b i; induction a as [|x a IH]; intros [|y b] [|i]; simpl; intros Ha Hb;
    try lia; auto.
  apply IH; lia.
Qed.

Lemma length_np_uniform (lo hi : R) (n : nat) (u : nat -> R) :
  length (np_uniform lo hi n u) = n.
Proof. unfold np_uniform. now rewrite length_map, length_seq. Qed.

Lemma nth_np_uniform (lo hi : R) (n : nat) (u : nat -> R) (i : nat) :
  (i < n)%nat -> nth i (np_uniform lo hi n u) 0 = lo + (hi - lo) * u i.
Proof.
  intros Hi. unfold np_uniform.
  rewrite (nth_indep _ 0 ((fun k => lo + (hi - lo) * u k) 0%nat))
    by now rewrite length_map, length_seq.
  rewrite (map_nth (fun k => lo + (hi - lo) * u k)), seq_nth by assumption.
  reflexivity.
Qed.

Lemma length_np_zeros (n : nat) : length (np_zeros n) = n.
Proof. apply repeat_length. Qed.


Lemma length_np_clip (a : vec) (lo hi : R) : length (np_clip a lo hi) = length a.
Proof. apply length_map. Qed.

Lemma nth_np_clip (a : vec) (lo hi : R) (i : nat) :
  (i < length a)%nat -> nth i (np_clip a lo hi) 0 = clip1 lo hi (nth i a 0).
Proof.
  intros Hi. unfold np_clip.
  rewrite (nth_indep _ 0 (clip1 lo hi 0)) by now rewrite length_map.
  apply map_nth.
Qed.

Lemma length_vscale (c : R) (a : vec) : length (vscale c a) = length a.
Proof. apply length_map. Qed.

Lemma nth_vscale (c : R) (a : vec) (i : nat) :
  (i < length a)%nat -> nth i (vscale c a) 0 = c * nth i a 0.
Proof.
  intros Hi. unfold vscale.
  rewrite (nth_indep _ 0 (c * 0)) by now rewrite length_map.
  apply (map_nth (Rmult c)).
Qed.

(** The clamp keeps a value in range and moves any other to the nearer
    bound. *)
Lemma clip1_range (lo hi x : R) : lo <= hi -> lo <= clip1 lo hi x <= hi.
Proof.
  intros H. unfold clip1, Rmin, Rmax.
  destruct (Rle_dec x lo); destruct (Rle_dec _ hi); lra.
Qed.

Lemma clip1_inside (lo hi x : R) : lo <= x <= hi -> clip1 lo hi x = x.
Proof.
  intros H. unfold clip1, Rmin, Rmax.
  destruct (Rle_dec x lo); destruct (Rle_dec _ hi); lra.
Qed.

Lemma clip1_below (lo hi x : R) : lo <= hi -> x < lo -> clip1 lo hi x = lo.
Proof.
  intros H1 H2. unfold clip1, Rmin, Rmax.
  destruct (Rle_dec x lo); destruct (Rle_dec _ hi); lra.
Qed.

Lemma clip1_above (lo hi x : R) : lo <= hi -> hi < x -> clip1 lo hi x = hi.
Proof.
  intros H1 H2. unfold clip1, Rmin, Rmax.
  destruct (Rle_dec x lo); destruct (Rle_dec _ hi); lra.
Qed.

Lemma clip1_idem (lo hi x : R) : clip1 lo hi (clip1 lo hi x) = clip1 lo hi x.
Proof.
  unfold clip1.
  destruct (Rle_dec (Rmax x lo) hi) as [H|H].
  - rewrite (Rmin_left _ _ H), (Rmax_left _ lo) by apply Rmax_r.
    now apply Rmin_left.
  - assert (Hhi : hi <= Rmax x lo) by lra.
    rewrite (Rmin_right _ _ Hhi).
    apply Rmin_right. apply Rmax_case_strong; intros; lra.
Qed.

(** Side conditions on the lengths of arrays. *)
Ltac vlen :=
  unfold vadd, vsub, vmul;
  repeat rewrite ?length_map2, ?length_vscale, ?length_np_uniform,
    ?length_np_clip, ?length_np_zeros;
  lia.

(** ** Particle updates *)

Lemma length_update_velocity (cfg : Config) (p : Particle) (g : vec)
    (u1 u2 : nat -> R) :
  well_shaped cfg p -> length g = NUM_DIMENSIONS cfg ->
  length (velocity (update_velocity cfg p g u1 u2)) = NUM_DIMENSIONS cfg.
Proof.
  intros (Hp & Hv & Hb) Hg. unfold update_velocity; cbn [velocity].
  unfold vadd, vmul, vsub.
  rewrite !length_map2, !length_vscale, !length_np_uniform.
  lia.
Qed.

Lemma well_shaped_update_velocity (cfg : Config) (p : Particle) (g : vec)
    (u1 u2 : nat -> R) :
  well_shaped cfg p -> length g = NUM_DIMENSIONS cfg ->
  well_shaped cfg (update_velocity cfg p g u1 u2).
Proof.
  intros Hp Hg. split; [|split].
  - apply Hp.
  - now apply length_update_velocity.
  - apply Hp.
Qed.

Lemma position_update_position (cfg : Config) (objective : vec -> R) (p : Particle) :
  position (update_position cfg objective p) =
  np_clip (vadd (position p) (velocity p)) (X_MIN cfg) (X_MAX cfg).
Proof. unfold update_position. now destruct Rlt_dec. Qed.

Lemma velocity_update_position (cfg : Config) (objective : vec -> R) (p : Particle) :
  velocity (update_position cfg objective p) = velocity p.
Proof. unfold update_position. now destruct Rlt_dec. Qed.

Lemma best_update_position (cfg : Config) (objective : vec -> R) (p : Particle) :
  let p' := update_position cfg objective p in
  (objective (position p') < best_value p /\
   best_position p' = position p' /\ best_value p' = objective (position p')) \/
  (~ objective (position p') < best_value p /\
   best_position p' = best_position p /\ best_value p' = best_value p).
Proof.
  unfold update_position. destruct Rlt_dec as [H|H]; simpl; [left|right]; auto.
Qed.

Lemma well_shaped_update_position (cfg : Config) (objective : vec -> R)
    (p : Particle) :
  well_shaped cfg p -> well_shaped cfg (update_position cfg objective p).
Proof.
  intros (Hp & Hv & Hb).
  assert (Hpos : length (position (update_position cfg objective p))
                 = NUM_DIMENSIONS cfg).
  { rewrite position_update_position, length_np_clip. unfold vadd.
    rewrite length_map2. lia. }
  split; [exact Hpos|split].
  - now rewrite velocity_update_position.
  - destruct (best_update_position cfg objective p) as [(_ & E & _)|(_ & E & _)];
      rewrite E; assumption.
Qed.

Lemma well_shaped_init (cfg : Config) (objective : vec -> R) (u : nat -> R) :
  well_shaped cfg (Particle_init cfg objective u).
Proof.
  repeat split; simpl;
    [apply length_np_uniform | apply length_np_zeros | apply length_np_uniform].
Qed.

(** C2: [update_velocity] sets, in every dimension [i], the velocity to
    [w*velocity[i] + c1*r1*(best_position[i]-position[i]) +
    c2*r2*(global_best_position[i]-position[i])], where [r1] and [r2] are the
    two draws of that dimension (each in [0,1) when the unit draw is); the
    value is not clamped, and position, best_position and best_value are
    left as they were. *)
Theorem update_velocity_spec (cfg : Config) (p : Particle)
    (global_best_position : vec) (u1 u2 : nat -> R) :
  well_shaped cfg p ->
  length global_best_position = NUM_DIMENSIONS cfg ->
  let p' := update_velocity cfg p global_best_position u1 u2 in
  length (velocity p') = NUM_DIMENSIONS cfg /\
  (forall i : nat, (i < NUM_DIMENSIONS cfg)%nat ->
     let r1 := nth i (np_uniform 0 1 (NUM_DIMENSIONS cfg) u1) 0 in
     let r2 := nth i (np_uniform 0 1 (NUM_DIMENSIONS cfg) u2) 0 in
     r1 = u1 i /\ r2 = u2 i /\
     (0 <= u1 i < 1 -> 0 <= r1 < 1) /\ (0 <= u2 i < 1 -> 0 <= r2 < 1) /\
     nth i (velocity p') 0 =
       INERTIA_WEIGHT cfg * nth i (velocity p) 0
       + COGNITIVE_CONST cfg * r1
         * (nth i (best_position p) 0 - nth i (position p) 0)
       + SOCIAL_CONST cfg * r2
         * (nth i global_best_position 0 - nth i (position p) 0)) /\
  position p' = position p /\
  best_position p' = best_position p /\
  best_value p' = best_value p.
Proof.
  intros Hws Hg p'. destruct Hws as (Hp & Hv & Hb).
  split; [apply length_update_velocity; [repeat split|]; assumption|].
  split; [|repeat split].
  intros i Hi r1 r2.
  assert (E1 : r1 = u1 i) by (unfold r1; rewrite nth_np_uniform by assumption; lra).
  assert (E2 : r2 = u2 i) by (unfold r2; rewrite nth_np_uniform by assumption; lra).
  split; [exact E1|]. split; [exact E2|].
  split; [rewrite E1; tauto|]. split; [rewrite E2; tauto|].
  unfold p', update_velocity; cbn [velocity position best_position].
  unfold vadd, vmul, vsub.
  rewrite (nth_map2 Rplus _ _ i 0 0 0) by vlen.
  rewrite (nth_map2 Rplus _ _ i 0 0 0) by vlen.
  rewrite nth_vscale by vlen.
  rewrite !(nth_map2 Rmult _ _ i 0 0 0) by vlen.
  rewrite !nth_vscale by vlen.
  rewrite !(nth_map2 Rminus _ _ i 0 0 0) by vlen.
  fold r1 r2. reflexivity.
Qed.

(** C3: [update_position] adds the velocity to the position coordinate by
    coordinate and clamps each coordinate into [X_MIN, X_MAX] (a coordinate
    below the range becomes [X_MIN], one above becomes [X_MAX], one inside is
    kept); the velocity is left as it was; the objective is evaluated at the
    clamped position, and the personal best is overwritten exactly when that
    value is strictly less than [best_value], so a tie keeps the record. *)
Theorem update_position_spec (cfg : Config) (objective : vec -> R) (p : Particle) :
  well_shaped cfg p ->
  X_MIN cfg <= X_MAX cfg ->
  let p' := update_position cfg objective p in
  let value := objective (position p') in
  length (position p') = NUM_DIMENSIONS cfg /\
  (forall i : nat, (i < NUM_DIMENSIONS cfg)%nat ->
     let moved := nth i (position p) 0 + nth i (velocity p) 0 in
     nth i (position p') 0 = clip1 (X_MIN cfg) (X_MAX cfg) moved /\
     X_MIN cfg <= nth i (position p') 0 <= X_MAX cfg /\
     (moved < X_MIN cfg -> nth i (position p') 0 = X_MIN cfg) /\
     (X_MAX cfg < moved -> nth i (position p') 0 = X_MAX cfg) /\
     (X_MIN cfg <= moved <= X_MAX cfg -> nth i (position p') 0 = moved)) /\
  velocity p' = velocity p /\
  (value < best_value p ->
     best_position p' = position p' /\ best_value p' = value) /\
  (~ value < best_value p ->
     best_position p' = best_position p /\ best_value p' = best_value p) /\
  (value = best_value p ->
     best_position p' = best_position p /\ best_value p' = best_value p).
Proof.
  intros Hws Hb p' value.
  pose proof (well_shaped_update_position cfg objective p Hws) as (Hlen & _ & _).
  destruct Hws as (Hp & Hv & _).
  split; [exact Hlen|]. split.
  - intros i Hi moved.
    assert (E : nth i (position p') 0 = clip1 (X_MIN cfg) (X_MAX cfg) moved).
    { unfold p'. rewrite position_update_position, nth_np_clip.
      - unfold vadd. now rewrite (nth_map2 Rplus _ _ i 0 0 0) by lia.
      - unfold vadd. rewrite length_map2. lia. }
    rewrite E. split; [reflexivity|]. split; [now apply clip1_range|].
    split; [now apply clip1_below|]. split; [now apply clip1_above|].
    apply clip1_inside.
  - split; [apply velocity_update_position|].
    destruct (best_update_position cfg objective p) as [(H & E1 & E2)|(H & E1 & E2)];
      fold p' in H, E1, E2; fold value in H, E2.
    + repeat split; try assumption; intros; lra.
    + repeat split; try assumption; intros; lra.
Qed.

(** The formula at a particle of the script, in dimension 0. *)
Lemma update_velocity_spec_witness :
  let p := Particle_init script_config michalewicz (fun _ => 1 / 2) in
  let g := np_zeros 5 in
  let p' := update_velocity script_config p g (fun _ => 1 / 4) (fun _ => 1 / 3) in
  well_shaped script_config p /\ length g = 5%nat /\
  nth 0 (velocity p') 0 =
    1 / 10 * nth 0 (velocity p) 0
    + 2 * (1 / 4) * (nth 0 (best_position p) 0 - nth 0 (position p) 0)
    + 2 * (1 / 3) * (nth 0 g 0 - nth 0 (position p) 0) /\
  position p' = position p.
Proof.
  intros p g p'.
  assert (Hws : well_shaped script_config p) by (repeat split; reflexivity).
  assert (Hg : length g = NUM_DIMENSIONS script_config) by reflexivity.
  split; [exact Hws|]. split; [exact Hg|].
  destruct (update_velocity_spec script_config p g (fun _ => 1 / 4) (fun _ => 1 / 3)
              Hws Hg) as (_ & Hv & Hp & _).
  split; [|exact Hp].
  destruct (Hv 0%nat) as (E1 & E2 & _ & _ & E); [simpl; lia|].
  rewrite E1, E2 in E. exact E.
Defined.

(** A particle of the script stays in [0, pi]. *)
Lemma update_position_spec_witness :
  let p := Particle_init script_config michalewicz (fun _ => 1 / 2) in
  let p' := update_position script_config michalewicz p in
  well_shaped script_config p /\ X_MIN script_config <= X_MAX script_config /\
  velocity p' = velocity p /\
  (forall i : nat, (i < 5)%nat -> 0 <= nth i (position p') 0 <= PI).
Proof.
  intros p p'.
  assert (Hws : well_shaped script_config p) by (repeat split; reflexivity).
  assert (Hb : X_MIN script_config <= X_MAX script_config).
  { simpl. pose proof PI_RGT_0. lra. }
  split; [exact Hws|]. split; [exact Hb|].
  destruct (update_position_spec script_config michalewicz p Hws Hb)
    as (_ & Hpos & Hv & _).
  split; [exact Hv|].
  intros i Hi. destruct (Hpos i Hi) as (_ & Hr & _). exact Hr.
Defined.

(** ** The personal best *)

Lemma consistent_init (cfg : Config) (objective : vec -> R) (u : nat -> R) :
  consistent objective (Particle_init cfg objective u).
Proof. reflexivity. Qed.

Lemma consistent_update_position (cfg : Config) (objective : vec -> R)
    (p : Particle) :
  consistent objective p -> consistent objective (update_position cfg objective p).
Proof.
  unfold consistent. intros H.
  destruct (best_update_position cfg objective p) as [(_ & E1 & E2)|(_ & E1 & E2)];
    rewrite E2, E1; auto.
Qed.

Lemma best_value_update_position_le (cfg : Config) (objective : vec -> R)
    (p : Particle) :
  best_value (update_position cfg objective p) <= best_value p.
Proof.
  destruct (best_update_position cfg objective p) as [(H & _ & E)|(_ & _ & E)];
    rewrite E; lra.
Qed.

Lemma consistent_apply_op (cfg : Config) (objective : vec -> R) (p : Particle)
    (o : particle_op) :
  consistent objective p -> consistent objective (apply_op cfg objective p o).
Proof.
  destruct o; simpl; intros H.
  - exact H.
  - now apply consistent_update_position.
Qed.

Lemma best_value_apply_op_le (cfg : Config) (objective : vec -> R) (p : Particle)
    (o : particle_op) :
  best_value (apply_op cfg objective p o) <= best_value p.
Proof.
  destruct o; simpl.
  - lra.
  - apply best_value_update_position_le.
Qed.

Lemma consistent_apply_ops (cfg : Config) (objective : vec -> R)
    (ops : list particle_op) (p : Particle) :
  consistent objective p -> consistent objective (apply_ops cfg objective ops p).
Proof.
  unfold apply_ops. revert p.
  induction ops as [|o ops IH]; intros p H; simpl; [exact H|].
  apply IH. now apply consistent_apply_op.
Qed.

Lemma best_value_apply_ops_le (cfg : Config) (objective : vec -> R)
    (ops : list particle_op) (p : Particle) :
  best_value (apply_ops cfg objective ops p) <= best_value p.
Proof.
  unfold apply_ops. revert p.
  induction ops as [|o ops IH]; intros p; simpl; [lra|].
  eapply Rle_trans; [apply IH|apply best_value_apply_op_le].
Qed.

(** C4: for a particle made by [Particle.__init__], after any sequence
    [before] of [update_velocity]/[update_position] calls, [best_value] is the
    objective at [best_position]; and any further calls [after] leave
    [best_value] at most what it was. *)
Theorem best_value_consistent_monotone (cfg : Config) (objective : vec -> R)
    (u : nat -> R) (before after : list particle_op) :
  let p0 := Particle_init cfg objective u in
  let p1 := apply_ops cfg objective before p0 in
  let p2 := apply_ops cfg objective after p1 in
  best_value p0 = objective (best_position p0) /\
  best_value p1 = objective (best_position p1) /\
  best_value p2 <= best_value p1.
Proof.
  intros p0 p1 p2. split; [reflexivity|]. split.
  - apply consistent_apply_ops, consistent_init.
  - apply best_value_apply_ops_le.
Qed.

(** ** The global best *)

Lemma min_from_spec {A : Type} (key : A -> R) (l : list A) (best : A) :
  let m := min_from key best l in
  In m (best :: l) /\ forall x : A, In x (best :: l) -> key m <= key x.
Proof.
  revert best; induction l as [|x l IH]; intros best; simpl.
  - split; [now left|]. intros y [<-|[]]. lra.
  - destruct (IH (if Rlt_dec (key x) (key best) then x else best)) as (Hin & Hle).
    split.
    + destruct Hin as [Hin|Hin]; [|now right; right].
      rewrite <- Hin. destruct Rlt_dec; [right; now left|now left].
    + intros y Hy.
      assert (Hc : key (if Rlt_dec (key x) (key best) then x else best) <= key x /\
                   key (if Rlt_dec (key x) (key best) then x else best) <= key best)
        by (destruct Rlt_dec; lra).
      pose proof (Hle _ (or_introl eq_refl)) as H0.
      destruct Hy as [<-|[<-|Hy]]; [lra|lra|].
      apply Hle. now right.
Qed.

(** When no later element is strictly smaller, [min] keeps the first. *)
Lemma min_from_first {A : Type} (key : A -> R) (l : list A) (best : A) :
  (forall x : A, In x l -> ~ key x < key best) -> min_from key best l = best.
Proof.
  revert best; induction l as [|x l IH]; intros best H; simpl; [reflexivity|].
  destruct Rlt_dec as [Hlt|_].
  - exfalso. apply (H x); [now left|exact Hlt].
  - apply IH. intros y Hy. apply H. now right.
Qed.

Lemma py_min_spec (sw : list Particle) :
  sw <> [] ->
  exists m : Particle, py_min best_value sw = Ok m /\ In m sw /\
    le_all_bests (best_value m) sw.
Proof.
  destruct sw as [|p sw]; [congruence|]. intros _.
  exists (min_from best_value p sw). split; [reflexivity|].
  apply (min_from_spec best_value sw p).
Qed.

Lemma length_for_particles (cfg : Config) (objective : vec -> R) (g : vec)
    (d : step_draws) (sw : list Particle) (i : nat) :
  length (for_particles cfg objective g d i sw) = length sw.
Proof.
  revert i; induction sw as [|p sw IH]; intros i; simpl; [reflexivity|].
  now rewrite IH.
Qed.

Lemma nth_for_particles (cfg : Config) (objective : vec -> R) (g : vec)
    (d : step_draws) (sw : list Particle) (i k : nat) (dflt : Particle) :
  (k < length sw)%nat ->
  nth k (for_particles cfg objective g d i sw) dflt =
  update_particle cfg objective g (d (i + k)%nat) (nth k sw dflt).
Proof.
  revert i k; induction sw as [|p sw IH]; intros i [|k]; simpl; intros Hk; try lia.
  - now rewrite Nat.add_0_r.
  - rewrite IH by lia. now rewrite Nat.add_succ_r.
Qed.

(** Every updated particle comes from one of the swarm, and conversely. *)
Lemma in_for_particles (cfg : Config) (objective : vec -> R) (g : vec)
    (d : step_draws) (sw : list Particle) (i : nat) (q : Particle) :
  In q (for_particles cfg objective g d i sw) ->
  exists (p : Particle) (k : nat), In p sw /\
    q = update_particle cfg objective g (d k) p.
Proof.
  revert i; induction sw as [|p sw IH]; intros i; simpl; [tauto|].
  intros [<-|H].
  - exists p, i. split; [now left|reflexivity].
  - destruct (IH _ H) as (p' & k & Hin & E). exists p', k. split; [now right|exact E].
Qed.

Lemma for_particles_in (cfg : Config) (objective : vec -> R) (g : vec)
    (d : step_draws) (sw : list Particle) (i : nat) (p : Particle) :
  In p sw ->
  exists k : nat, In (update_particle cfg objective g (d k) p)
                     (for_particles cfg objective g d i sw).
Proof.
  revert i; induction sw as [|p' sw IH]; intros i; simpl; [tauto|].
  intros [->|H].
  - exists i. now left.
  - destruct (IH (S i) H) as (k & Hk). exists k. now right.
Qed.

Lemma best_value_update_particle_le (cfg : Config) (objective : vec -> R)
    (g : vec) (d : (nat -> R) * (nat -> R)) (p : Particle) :
  best_value (update_particle cfg objective g d p) <= best_value p.
Proof.
  unfold update_particle.
  eapply Rle_trans; [apply best_value_update_position_le|]. simpl. lra.
Qed.

Lemma recompute_global_best_spec (sw : list Particle) (gbp : vec) (gbv : R) :
  sw <> [] ->
  exists m : Particle, In m sw /\ le_all_bests (best_value m) sw /\
    ((best_value m < gbv /\
      recompute_global_best sw gbp gbv = Ok (best_position m, best_value m)) \/
     (~ best_value m < gbv /\ recompute_global_best sw gbp gbv = Ok (gbp, gbv))).
Proof.
  intros Hne. destruct (py_min_spec sw Hne) as (m & E & Hin & Hle).
  exists m. split; [exact Hin|]. split; [exact Hle|].
  unfold recompute_global_best. rewrite E.
  destruct Rlt_dec; [left|right]; auto.
Qed.

Lemma mid_step_nonempty (cfg : Config) (objective : vec -> R) (d : step_draws)
    (st : State) :
  swarm st <> [] -> mid_step cfg objective d st <> [].
Proof.
  intros H E. apply (f_equal (@length Particle)) in E.
  unfold mid_step in E. rewrite length_for_particles in E.
  destruct (swarm st); [congruence|discriminate].
Qed.

(** After the [for] loop some particle is at least as good as the old global
    best. *)
Lemma mid_step_reaches_global_best (cfg : Config) (objective : vec -> R)
    (d : step_draws) (st : State) :
  synchronized st ->
  exists q : Particle, In q (mid_step cfg objective d st) /\
    best_value q <= global_best_value st.
Proof.
  intros (_ & _ & p & Hin & E).
  destruct (for_particles_in cfg objective (global_best_position st) d (swarm st)
              0 p Hin) as (k & Hk).
  eexists. split; [exact Hk|]. rewrite <- E. apply best_value_update_particle_le.
Qed.

Lemma iteration_body_spec (cfg : Config) (objective : vec -> R) (d : step_draws)
    (st : State) :
  synchronized st ->
  exists st1 : State,
    iteration_body cfg objective d st = Ok st1 /\
    swarm st1 = mid_step cfg objective d st /\
    global_best_value st1 <= global_best_value st /\
    best_values_history st1 = best_values_history st ++ [global_best_value st1] /\
    iterations st1 = iterations st /\
    synchronized st1.
Proof.
  intros Hs.
  pose proof (mid_step_nonempty cfg objective d st (proj1 Hs)) as Hne.
  destruct (mid_step_reaches_global_best cfg objective d st Hs) as (q & Hq & Hqle).
  destruct (recompute_global_best_spec (mid_step cfg objective d st)
              (global_best_position st) (global_best_value st) Hne)
    as (m & Hm & Hle & [(Hlt & E)|(Hnlt & E)]);
    unfold iteration_body; rewrite E; eexists; (split; [reflexivity|]); simpl.
  - split; [reflexivity|]. split; [lra|]. split; [reflexivity|].
    split; [reflexivity|]. split; [exact Hne|]. split; [exact Hle|].
    exists m. auto.
  - split; [reflexivity|]. split; [lra|]. split; [reflexivity|].
    split; [reflexivity|]. split; [exact Hne|].
    assert (Eq : best_value m = global_best_value st).
    { pose proof (Hle q Hq). lra. }
    split.
    + intros p Hp. rewrite <- Eq. now apply Hle.
    + exists m. auto.
Qed.

Lemma initial_state_spec (cfg : Config) (objective : vec -> R)
    (init_draws : nat -> nat -> R) (st0 : State) :
  initial_state cfg objective init_draws = Ok st0 ->
  swarm st0 = initial_swarm cfg objective init_draws /\
  best_values_history st0 = [] /\ avg_values_history st0 = [] /\
  diversity_history st0 = [] /\ iterations st0 = 0%nat /\
  (exists m : Particle, In m (swarm st0) /\
     global_best_position st0 = best_position m /\
     global_best_value st0 = best_value m) /\
  synchronized st0.
Proof.
  unfold initial_state. intros H.
  destruct (initial_swarm cfg objective init_draws) as [|p sw] eqn:Esw;
    [discriminate|].
  destruct (py_min_spec (p :: sw)) as (m & E & Hin & Hle); [discriminate|].
  rewrite E in H. injection H as <-. simpl.
  repeat split; auto; try discriminate.
  - exists m. auto.
  - exists m. auto.
Qed.

Lemma initial_state_ok (cfg : Config) (objective : vec -> R)
    (init_draws : nat -> nat -> R) :
  (0 < NUM_PARTICLES cfg)%nat ->
  exists st0 : State, initial_state cfg objective init_draws = Ok st0.
Proof.
  intros H. unfold initial_state, initial_swarm.
  destruct (NUM_PARTICLES cfg) as [|n]; [lia|]. simpl. eexists. reflexivity.
Qed.

Lemma reachable_synchronized (cfg : Config) (objective : vec -> R)
    (init_draws : nat -> nat -> R) (st : State) :
  reachable cfg objective init_draws st -> synchronized st.
Proof.
  induction 1 as [st0 H|st st1 d _ IH H|st _ IH|st _ IH].
  - apply (initial_state_spec _ _ _ _ H).
  - destruct (iteration_body_spec cfg objective d st IH)
      as (st1' & E & _ & _ & _ & _ & Hs).
    congruence.
  - exact IH.
  - exact IH.
Qed.

Lemma nonincreasing_snoc (l : list R) (x : R) :
  nonincreasing l -> (forall y : R, In y l -> x <= y) -> nonincreasing (l ++ [x]).
Proof.
  intros Hl Hx i Hi. rewrite length_app in Hi. simpl in Hi.
  assert (Hil : (i < length l)%nat) by lia.
  rewrite (app_nth1 l [x] 0 Hil).
  destruct (Nat.eq_dec (S i) (length l)) as [E|E].
  - rewrite app_nth2 by lia. rewrite E, Nat.sub_diag. simpl.
    apply Hx. now apply nth_In.
  - rewrite app_nth1 by lia. apply Hl. lia.
Qed.

(** The recorded global bests never go up, and none is below the current
    one. *)
Lemma reachable_history (cfg : Config) (objective : vec -> R)
    (init_draws : nat -> nat -> R) (st : State) :
  reachable cfg objective init_draws st ->
  nonincreasing (best_values_history st) /\
  forall y : R, In y (best_values_history st) -> global_best_value st <= y.
Proof.
  induction 1 as [st0 H|st st1 d Hr IH H|st _ IH|st _ IH].
  - destruct (initial_state_spec _ _ _ _ H) as (_ & -> & _).
    split; [intros i Hi; simpl in Hi; lia|intros y []].
  - destruct IH as (Hn & Hle).
    destruct (iteration_body_spec cfg objective d st
                (reachable_synchronized _ _ _ _ Hr))
      as (st1' & E & _ & Hmono & Eh & _).
    rewrite E in H. injection H as <-. rewrite Eh. split.
    + apply nonincreasing_snoc; [exact Hn|].
      intros y Hy. specialize (Hle y Hy). lra.
    + intros y Hy. apply in_app_or in Hy as [Hy|[<-|[]]]; [|lra].
      specialize (Hle y Hy). lra.
  - exact IH.
  - exact IH.
Qed.

(** C1 (as amended): whenever the loop is between two iterations (before
    the loop, after the body of an iteration), [global_best_value] equals the
    least [best_value] of the swarm, and the recorded global bests are
    non-increasing; an iteration started there succeeds, never raises the
    global best, records it, and ends with the equality again; after its
    [for] loop and before the recomputation some particle is at least as
    good as the global best, so there the global best is only known to be
    greater than or equal to the least [best_value]. *)
Theorem global_best_elitist (cfg : Config) (objective : vec -> R)
    (init_draws : nat -> nat -> R) (st : State) (d : step_draws) :
  reachable cfg objective init_draws st ->
  is_min_best (global_best_value st) (swarm st) /\
  nonincreasing (best_values_history st) /\
  (exists q : Particle, In q (mid_step cfg objective d st) /\
     best_value q <= global_best_value st) /\
  exists st1 : State,
    iteration_body cfg objective d st = Ok st1 /\
    swarm st1 = mid_step cfg objective d st /\
    global_best_value st1 <= global_best_value st /\
    best_values_history st1 = best_values_history st ++ [global_best_value st1] /\
    is_min_best (global_best_value st1) (swarm st1).
Proof.
  intros Hr. pose proof (reachable_synchronized _ _ _ _ Hr) as Hs.
  split; [apply Hs|]. split; [apply (reachable_history _ _ _ _ Hr)|].
  split; [now apply mid_step_reaches_global_best|].
  destruct (iteration_body_spec cfg objective d st Hs)
    as (st1 & E & Esw & Hle & Eh & _ & Hs1).
  exists st1. repeat split; try assumption; apply Hs1.
Qed.

(** ** A run of the script *)

Lemma michalewicz_5 (a b c d e : R) :
  michalewicz [a; b; c; d; e] =
  - (0 + sin a * sin (1 * a ^ 2 / PI) ^ 20
       + sin b * sin ((1 + 1) * b ^ 2 / PI) ^ 20
       + sin c * sin ((1 + 1 + 1) * c ^ 2 / PI) ^ 20
       + sin d * sin ((1 + 1 + 1 + 1) * d ^ 2 / PI) ^ 20
       + sin e * sin ((1 + 1 + 1 + 1 + 1) * e ^ 2 / PI) ^ 20).
Proof. reflexivity. Qed.

Lemma michalewicz_origin : michalewicz [0; 0; 0; 0; 0] = 0.
Proof. rewrite michalewicz_5, sin_0. ring. Qed.

Lemma michalewicz_half_pi_4 : michalewicz [0; 0; 0; PI / 2; 0] = 0.
Proof.
  rewrite michalewicz_5, sin_0.
  replace ((1 + 1 + 1 + 1) * (PI / 2) ^ 2 / PI) with PI
    by (field; apply PI_neq0).
  rewrite sin_PI. ring.
Qed.

Lemma michalewicz_quarter_pi_4 : michalewicz [0; 0; 0; PI / 4; 0] < 0.
Proof.
  rewrite michalewicz_5, sin_0.
  replace ((1 + 1 + 1 + 1) * (PI / 4) ^ 2 / PI) with (PI / 4)
    by (field; apply PI_neq0).
  assert (H : 0 < sin (PI / 4)).
  { apply sin_gt_0; pose proof PI_RGT_0; lra. }
  pose proof (pow_lt _ 20 H) as H20.
  assert (0 < sin (PI / 4) * sin (PI / 4) ^ 20) by now apply Rmult_lt_0_compat.
  lra.
Qed.

Lemma init_leader_particle :
  Particle_init script_config michalewicz (leader_init_draws 0) = leader_particle.
Proof.
  unfold Particle_init, leader_particle.
  assert (E : np_uniform (X_MIN script_config) (X_MAX script_config)
                (NUM_DIMENSIONS script_config) (leader_init_draws 0)
              = [0; 0; 0; PI / 2; 0]).
  { cbv [np_uniform script_config X_MIN X_MAX NUM_DIMENSIONS map seq leader_init_draws].
    repeat apply (f_equal2 (@cons R)); try lra; reflexivity. }
  rewrite E, michalewicz_half_pi_4. reflexivity.
Qed.

Lemma init_origin_particle (k : nat) :
  Particle_init script_config michalewicz (leader_init_draws (S k)) = origin_particle.
Proof.
  unfold Particle_init, origin_particle.
  assert (E : np_uniform (X_MIN script_config) (X_MAX script_config)
                (NUM_DIMENSIONS script_config) (leader_init_draws (S k))
              = [0; 0; 0; 0; 0]).
  { cbv [np_uniform script_config X_MIN X_MAX NUM_DIMENSIONS map seq leader_init_draws].
    repeat apply (f_equal2 (@cons R)); try lra; reflexivity. }
  rewrite E, michalewicz_origin. reflexivity.
Qed.

Lemma leader_initial_swarm :
  initial_swarm script_config michalewicz leader_init_draws
  = leader_particle :: repeat origin_particle 99.
Proof.
  unfold initial_swarm.
  change (NUM_PARTICLES script_config) with 100%nat.
  change (seq 0 100) with (cons 0%nat (seq 1%nat 99%nat)).
  rewrite map_cons, init_leader_particle. f_equal.
  rewrite <- seq_shift, map_map.
  generalize 99%nat as n. intros n.
  rewrite <- (length_seq n 0) at 2.
  induction (seq 0 n) as [|k l IH]; simpl; [reflexivity|].
  now rewrite init_origin_particle, IH.
Qed.

Lemma origin_particle_improves :
  best_value (update_particle script_config michalewicz (position leader_particle)
                (quarter_step_draws 1%nat) origin_particle) < 0.
Proof.
  unfold update_particle.
  set (q := update_velocity script_config origin_particle (position leader_particle)
              (fst (quarter_step_draws 1%nat)) (snd (quarter_step_draws 1%nat))).
  assert (E : np_clip (vadd (position q) (velocity q))
                (X_MIN script_config) (X_MAX script_config)
              = [0; 0; 0; PI / 4; 0]).
  { cbv [q np_clip vadd vsub vmul vscale map2 map update_velocity position velocity
         best_position origin_particle leader_particle quarter_step_draws fst snd
         np_uniform seq script_config X_MIN X_MAX NUM_DIMENSIONS INERTIA_WEIGHT
         COGNITIVE_CONST SOCIAL_CONST].
    pose proof PI_RGT_0.
    repeat apply (f_equal2 (@cons R)); try (rewrite clip1_inside; lra).
    reflexivity. }
  unfold update_position. rewrite E. pose proof michalewicz_quarter_pi_4.
  destruct Rlt_dec as [Hlt|Hn]; simpl.
  - exact Hlt.
  - simpl in Hn. lra.
Qed.

Lemma leader_initial_state :
  initial_state script_config michalewicz leader_init_draws = Ok leader_state.
Proof.
  unfold initial_state. rewrite leader_initial_swarm.
  unfold py_min. rewrite min_from_first; [reflexivity|].
  intros x Hx. apply repeat_spec in Hx. subst x. simpl. lra.
Qed.

(** In this run, after the [for] loop of the first iteration the particle at
    index 1 has a personal best below the global best, which is recomputed
    only afterwards: there [global_best_value <= min(p.best_value)] fails. *)
Lemma global_best_above_min_mid_step :
  initial_state script_config michalewicz leader_init_draws = Ok leader_state /\
  ~ le_all_bests (global_best_value leader_state)
      (mid_step script_config michalewicz quarter_step_draws leader_state).
Proof.
  split; [exact leader_initial_state|].
  intros H.
  specialize (H (update_particle script_config michalewicz (position leader_particle)
                   (quarter_step_draws 1%nat) origin_particle)).
  pose proof origin_particle_improves as Hlt.
  assert (Hin : In (update_particle script_config michalewicz (position leader_particle)
                      (quarter_step_draws 1%nat) origin_particle)
                   (mid_step script_config michalewicz quarter_step_draws leader_state)).
  { right. left. reflexivity. }
  specialize (H Hin). change (global_best_value leader_state) with 0 in H. lra.
Qed.

(** The first iteration of the run above. *)
Lemma global_best_elitist_witness :
  reachable script_config michalewicz leader_init_draws leader_state /\
  is_min_best (global_best_value leader_state) (swarm leader_state) /\
  exists st1 : State,
    iteration_body script_config michalewicz quarter_step_draws leader_state = Ok st1 /\
    global_best_value st1 <= global_best_value leader_state /\
    is_min_best (global_best_value st1) (swarm st1).
Proof.
  assert (Hr : reachable script_config michalewicz leader_init_draws leader_state)
    by (apply reach_init; exact leader_initial_state).
  split; [exact Hr|].
  destruct (global_best_elitist script_config michalewicz leader_init_draws
              leader_state quarter_step_draws Hr)
    as (Hmin & _ & _ & st1 & E & _ & Hle & _ & Hmin1).
  split; [exact Hmin|]. exists st1. auto.
Defined.

(** ** Diversity *)

Lemma map_nth_seq (l : list vec) (h : vec -> R) :
  map (fun j => h (nth j l [])) (seq 0 (length l)) = map h l.
Proof.
  induction l as [|x l IH]; [reflexivity|].
  cbn [length seq map nth]. f_equal.
  rewrite <- seq_shift, map_map. exact IH.
Qed.

Lemma pair_distances_pairs_from (cfg : Config) (positions : list vec) :
  length positions = NUM_PARTICLES cfg ->
  pair_distances cfg positions = pairs_from positions.
Proof.
  unfold pair_distances. intros <-.
  induction positions as [|x r IH]; [reflexivity|].
  cbn [length seq flat_map pairs_from]. f_equal.
  - change (0 + 1)%nat with 1%nat.
    replace (S (length r) - 1)%nat with (length r) by lia.
    rewrite <- seq_shift, map_map. cbn [nth].
    apply (map_nth_seq r (fun y => np_linalg_norm (vsub x y))).
  - rewrite <- IH. rewrite <- seq_shift.
    rewrite !flat_map_concat_map, map_map. f_equal.
    apply map_ext. intros i.
    replace (S i + 1)%nat with (S (i + 1)) by lia.
    replace (S (length r) - S (i + 1))%nat with (length r - (i + 1))%nat by lia.
    rewrite <- seq_shift, map_map. reflexivity.
Qed.

Lemma length_pairs_from (l : list vec) :
  (2 * length (pairs_from l) = length l * (length l - 1))%nat.
Proof.
  induction l as [|x r IH]; [reflexivity|].
  cbn [pairs_from length]. rewrite length_app, length_map.
  replace (S (length r) - 1)%nat with (length r) by lia.
  destruct (length r) as [|n]; [simpl in *; lia|].
  replace (S n - 1)%nat with n in IH by lia. lia.
Qed.

Lemma sum_squares_nonneg (v : vec) : 0 <= sum_list (map (fun x => x * x) v).
Proof.
  induction v as [|x v IH]; simpl; [lra|]. nra.
Qed.

Lemma np_linalg_norm_nonneg (v : vec) : 0 <= np_linalg_norm v.
Proof. apply sqrt_pos. Qed.

Lemma np_linalg_norm_zero (v : vec) :
  np_linalg_norm v = 0 <-> Forall (fun x => x = 0) v.
Proof.
  unfold np_linalg_norm. split.
  - intros H. apply sqrt_eq_0 in H; [|apply sum_squares_nonneg].
    induction v as [|x v IH]; [constructor|].
    simpl in H. pose proof (sum_squares_nonneg v).
    constructor; [nra|]. apply IH. nra.
  - intros H. replace (sum_list (map (fun x => x * x) v)) with 0; [apply sqrt_0|].
    induction H as [|x v Hx _ IH]; simpl; [reflexivity|]. rewrite <- IH, Hx. ring.
Qed.

Lemma vsub_zero (a b : vec) :
  length a = length b -> (Forall (fun x => x = 0) (vsub a b) <-> a = b).
Proof.
  revert b; induction a as [|x a IH]; intros [|y b]; simpl; intros Hl; try discriminate.
  - split; [reflexivity|constructor].
  - injection Hl as Hl. split.
    + intros H. inversion H as [|? ? H1 H2]; subst.
      f_equal; [lra|]. now apply IH.
    + intros E. injection E as -> ->. constructor; [lra|].
      now apply (IH b).
Qed.

Lemma distance_zero (a b : vec) :
  length a = length b -> (np_linalg_norm (vsub a b) = 0 <-> a = b).
Proof.
  intros H. rewrite np_linalg_norm_zero. now apply vsub_zero.
Qed.

Lemma pairs_from_nonneg (l : list vec) : Forall (fun x => 0 <= x) (pairs_from l).
Proof.
  induction l as [|x r IH]; [constructor|].
  cbn [pairs_from]. apply Forall_app. split; [|exact IH].
  apply Forall_forall. intros y Hy. apply in_map_iff in Hy as (z & <- & _).
  apply np_linalg_norm_nonneg.
Qed.

Lemma sum_list_nonneg (l : list R) :
  Forall (fun x => 0 <= x) l -> 0 <= sum_list l.
Proof.
  induction 1 as [|x l Hx _ IH]; simpl; lra.
Qed.

Lemma sum_list_zero (l : list R) :
  Forall (fun x => 0 <= x) l ->
  (sum_list l = 0 <-> Forall (fun x => x = 0) l).
Proof.
  induction 1 as [|x l Hx Hl IH]; simpl.
  - split; [constructor|reflexivity].
  - pose proof (sum_list_nonneg l Hl). split.
    + intros H0. constructor; [lra|]. apply IH. lra.
    + intros H0. inversion H0 as [|? ? Hx0 Hl0]; subst. apply IH in Hl0. lra.
Qed.

(** All pairwise distances vanish exactly when all arrays are the same. *)
Lemma pairs_from_zero (n : nat) (l : list vec) :
  Forall (fun x => length x = n) l ->
  (Forall (fun x => x = 0) (pairs_from l) <->
   forall a b : vec, In a l -> In b l -> a = b).
Proof.
  induction 1 as [|x r Hx Hr IH]; cbn [pairs_from].
  - split; [intros _ a b []|constructor].
  - rewrite Forall_app, IH. split.
    + intros (H1 & H2).
      assert (Hhead : forall b, In b r -> x = b).
      { intros b Hb. rewrite Forall_forall in H1, Hr.
        apply distance_zero; [rewrite (Hr b Hb); exact Hx|].
        apply H1. apply in_map_iff. exists b. auto. }
      intros a b [<-|Ha] [<-|Hb]; auto.
      symmetry; auto.
    + intros H. split.
      * apply Forall_forall. intros d Hd. apply in_map_iff in Hd as (b & <- & Hb).
        rewrite Forall_forall in Hr.
        apply distance_zero; [rewrite (Hr b Hb); exact Hx|].
        apply H; [now left|now right].
      * intros a b Ha Hb. apply H; now right.
Qed.

Lemma in_pair_distances (cfg : Config) (positions : list vec) (i j : nat) :
  (i < j < NUM_PARTICLES cfg)%nat ->
  In (np_linalg_norm (vsub (nth i positions []) (nth j positions [])))
     (pair_distances cfg positions).
Proof.
  intros H. unfold pair_distances. apply in_flat_map. exists i. split.
  - apply in_seq. lia.
  - apply in_map_iff. exists j. split; [reflexivity|]. apply in_seq. lia.
Qed.

(** C5 (as amended): for a swarm of [NUM_PARTICLES >= 2] particles,
    [diversity] is the mean of the Euclidean distances of the
    [N*(N-1)/2] pairs [i < j] of positions; it is non-negative, and it is
    zero exactly when all positions are the same. *)
Theorem diversity_spec (cfg : Config) (sw : list Particle) :
  length sw = NUM_PARTICLES cfg ->
  (2 <= NUM_PARTICLES cfg)%nat ->
  (forall p : Particle, In p sw -> length (position p) = NUM_DIMENSIONS cfg) ->
  let positions := map position sw in
  let distances := pair_distances cfg positions in
  (2 * length distances = NUM_PARTICLES cfg * (NUM_PARTICLES cfg - 1))%nat /\
  (forall i j : nat, (i < j < NUM_PARTICLES cfg)%nat ->
     In (np_linalg_norm (vsub (nth i positions []) (nth j positions []))) distances) /\
  exists v : R,
    diversity cfg sw = Some v /\
    v = sum_list distances / INR (length distances) /\
    0 <= v /\
    (v = 0 <-> forall p q : Particle, In p sw -> In q sw -> position p = position q).
Proof.
  intros Hlen HN Hdim positions distances.
  assert (Hpl : length positions = NUM_PARTICLES cfg)
    by (unfold positions; now rewrite length_map).
  assert (Ed : distances = pairs_from positions)
    by now apply pair_distances_pairs_from.
  assert (Hcount : (2 * length distances
                    = NUM_PARTICLES cfg * (NUM_PARTICLES cfg - 1))%nat).
  { rewrite Ed, <- Hpl. apply length_pairs_from. }
  split; [exact Hcount|]. split; [intros i j; apply in_pair_distances|].
  assert (Hpos : (0 < length distances)%nat) by nia.
  assert (Hnn : Forall (fun x => 0 <= x) distances)
    by (rewrite Ed; apply pairs_from_nonneg).
  assert (HI : 0 < INR (length distances)) by now apply lt_0_INR.
  exists (sum_list distances / INR (length distances)).
  split; [|split; [reflexivity|split]].
  - unfold diversity. fold positions. fold distances.
    destruct distances; [simpl in Hpos; lia|reflexivity].
  - apply Rmult_le_pos; [now apply sum_list_nonneg|].
    left. now apply Rinv_0_lt_compat.
  - assert (Hz : sum_list distances / INR (length distances) = 0
                 <-> sum_list distances = 0).
    { split; intros H.
      - apply (Rmult_eq_compat_r (INR (length distances))) in H.
        unfold Rdiv in H. rewrite Rmult_assoc, Rinv_l, Rmult_1_r, Rmult_0_l in H; lra.
      - rewrite H. unfold Rdiv. apply Rmult_0_l. }
    rewrite Hz, (sum_list_zero _ Hnn), Ed.
    rewrite (pairs_from_zero (NUM_DIMENSIONS cfg)).
    + unfold positions. split.
      * intros H p q Hp Hq. apply H; now apply in_map.
      * intros H a b Ha Hb.
        apply in_map_iff in Ha as (p & <- & Hp).
        apply in_map_iff in Hb as (q & <- & Hq). now apply H.
    + apply Forall_forall. unfold positions. intros a Ha.
      apply in_map_iff in Ha as (p & <- & Hp). now apply Hdim.
Qed.

(** With one particle there is no pair: the mean is taken of an empty list
    and is [nan], so [diversity] is not zero although all positions are the
    same. *)
Lemma diversity_single_particle_nan :
  let sw := initial_swarm single_particle_config michalewicz (fun _ _ => 0) in
  length sw = NUM_PARTICLES single_particle_config /\
  (forall p q : Particle, In p sw -> In q sw -> position p = position q) /\
  diversity single_particle_config sw = None /\
  ~ (exists v : R, diversity single_particle_config sw = Some v /\ 0 <= v /\
       (v = 0 <-> forall p q : Particle, In p sw -> In q sw -> position p = position q)).
Proof.
  intros sw. split; [reflexivity|]. split; [|split].
  - intros p q [<-|[]] [<-|[]]. reflexivity.
  - reflexivity.
  - intros (v & H & _). discriminate H.
Qed.

(** The initial swarm of the run above has positive diversity. *)
Lemma diversity_spec_witness :
  let sw := swarm leader_state in
  length sw = NUM_PARTICLES script_config /\
  (2 <= NUM_PARTICLES script_config)%nat /\
  (forall p : Particle, In p sw -> length (position p) = NUM_DIMENSIONS script_config) /\
  exists v : R, diversity script_config sw = Some v /\ 0 < v.
Proof.
  intros sw.
  assert (Hlen : length sw = NUM_PARTICLES script_config) by reflexivity.
  assert (HN : (2 <= NUM_PARTICLES script_config)%nat) by (simpl; lia).
  assert (Hdim : forall p : Particle, In p sw ->
                   length (position p) = NUM_DIMENSIONS script_config).
  { intros p [<-|Hp]; [reflexivity|]. apply repeat_spec in Hp. now subst p. }
  split; [exact Hlen|]. split; [exact HN|]. split; [exact Hdim|].
  destruct (diversity_spec script_config sw Hlen HN Hdim)
    as (_ & _ & v & E & _ & Hnn & Hz).
  exists v. split; [exact E|].
  destruct Hnn as [Hpos|Hzero]; [exact Hpos|].
  exfalso. symmetry in Hzero.
  pose proof (proj1 Hz Hzero) as Hsame.
  assert (Hne : position leader_particle = position origin_particle)
    by (apply Hsame; [now left|right; now left]).
  injection Hne as Hne. pose proof PI_RGT_0. lra.
Defined.

(** ** Initialization *)

Lemma length_initial_swarm (cfg : Config) (objective : vec -> R)
    (init_draws : nat -> nat -> R) :
  length (initial_swarm cfg objective init_draws) = NUM_PARTICLES cfg.
Proof. unfold initial_swarm. now rewrite length_map, length_seq. Qed.


Lemma in_initial_swarm (cfg : Config) (objective : vec -> R)
    (init_draws : nat -> nat -> R) (p : Particle) :
  In p (initial_swarm cfg objective init_draws) ->
  exists k : nat, p = Particle_init cfg objective (init_draws k).
Proof.
  unfold initial_swarm. intros H. apply in_map_iff in H as (k & <- & _).
  now exists k.
Qed.




(** ** Processing order within an iteration *)

Lemma length_update_at (i : nat) (f : Particle -> Particle) (sw : list Particle) :
  length (update_at i f sw) = length sw.
Proof.
  revert i; induction sw as [|p sw IH]; intros [|i]; simpl; auto.
Qed.

Lemma nth_update_at_same (i : nat) (f : Particle -> Particle) (sw : list Particle)
    (dflt : Particle) :
  (i < length sw)%nat -> nth i (update_at i f sw) dflt = f (nth i sw dflt).
Proof.
  revert i; induction sw as [|p sw IH]; intros [|i]; simpl; intros H; try lia; auto.
  apply IH. lia.
Qed.

Lemma nth_update_at_other (i k : nat) (f : Particle -> Particle)
    (sw : list Particle) (dflt : Particle) :
  i <> k -> nth k (update_at i f sw) dflt = nth k sw dflt.
Proof.
  revert i k; induction sw as [|p sw IH]; intros [|i] [|k]; simpl; intros H;
    try congruence; auto.
Qed.

Lemma length_for_particles_in_order (cfg : Config) (objective : vec -> R) (g : vec)
    (d : step_draws) (order : list nat) (sw : list Particle) :
  length (for_particles_in_order cfg objective g d order sw) = length sw.
Proof.
  unfold for_particles_in_order. revert sw.
  induction order as [|i order IH]; intros sw; simpl; [reflexivity|].
  now rewrite IH, length_update_at.
Qed.

(** A particle is updated once if its index is visited, with the snapshot of
    the global best and its own draws, and is left alone otherwise. *)
Lemma nth_for_particles_in_order (cfg : Config) (objective : vec -> R) (g : vec)
    (d : step_draws) (order : list nat) (sw : list Particle) (k : nat)
    (dflt : Particle) :
  NoDup order -> (k < length sw)%nat ->
  (In k order ->
   nth k (for_particles_in_order cfg objective g d order sw) dflt
   = update_particle cfg objective g (d k) (nth k sw dflt)) /\
  (~ In k order ->
   nth k (for_particles_in_order cfg objective g d order sw) dflt = nth k sw dflt).
Proof.
  unfold for_particles_in_order. revert sw.
  induction order as [|i order IH]; intros sw Hnd Hk; simpl.
  - split; [tauto|reflexivity].
  - inversion Hnd as [|? ? Hni Hnd']; subst.
    destruct (IH (update_at i (update_particle cfg objective g (d i)) sw) Hnd')
      as (Hin & Hout); [now rewrite length_update_at|].
    split.
    + intros [->|H].
      * rewrite (Hout Hni). now apply nth_update_at_same.
      * rewrite (Hin H). f_equal. apply nth_update_at_other. intros ->. tauto.
    + intros H. rewrite Hout by tauto. apply nth_update_at_other. tauto.
Qed.

Lemma for_particles_any_order (cfg : Config) (objective : vec -> R) (g : vec)
    (d : step_draws) (order : list nat) (sw : list Particle) :
  Permutation order (seq 0 (length sw)) ->
  for_particles_in_order cfg objective g d order sw
  = for_particles cfg objective g d 0 sw.
Proof.
  intros Hperm.
  destruct sw as [|p0 sw'] eqn:Esw.
  { apply Permutation_sym, Permutation_nil in Hperm. now subst order. }
  rewrite <- Esw in *. clear Esw sw'.
  apply (nth_ext _ _ p0 p0).
  - now rewrite length_for_particles_in_order, length_for_particles.
  - intros k Hk. rewrite length_for_particles_in_order in Hk.
    rewrite nth_for_particles by assumption. simpl.
    apply nth_for_particles_in_order; try assumption.
    + apply (Permutation_NoDup (Permutation_sym Hperm)), seq_NoDup.
    + apply (Permutation_in _ (Permutation_sym Hperm)), in_seq. lia.
Qed.

(** C7: in the [for] loop of an iteration the particle at index [k] is
    updated from its own state, its own draws and the global-best position of
    the previous iteration only; hence, visiting the particles in any order
    (any permutation of the indices) gives the same state after the iteration
    (positions, velocities, personal bests, the global best and the
    histories) as the loop of the script. *)
Theorem iteration_order_independent (cfg : Config) (objective : vec -> R)
    (order : list nat) (d : step_draws) (st : State) :
  Permutation order (seq 0 (length (swarm st))) ->
  (forall (k : nat) (dflt : Particle), (k < length (swarm st))%nat ->
     nth k (mid_step cfg objective d st) dflt
     = update_particle cfg objective (global_best_position st) (d k)
         (nth k (swarm st) dflt)) /\
  for_particles_in_order cfg objective (global_best_position st) d order (swarm st)
  = mid_step cfg objective d st /\
  iteration_body_in_order cfg objective order d st = iteration_body cfg objective d st.
Proof.
  intros Hperm.
  pose proof (for_particles_any_order cfg objective (global_best_position st) d
                order (swarm st) Hperm) as E.
  split; [|split].
  - intros k dflt Hk. unfold mid_step. now rewrite nth_for_particles.
  - exact E.
  - unfold iteration_body_in_order, iteration_body, mid_step. now rewrite E.
Qed.

(** Visiting the hundred particles in reverse order. *)
Lemma iteration_order_independent_witness :
  let order := rev (seq 0 (length (swarm leader_state))) in
  Permutation order (seq 0 (length (swarm leader_state))) /\
  iteration_body_in_order script_config michalewicz order quarter_step_draws
    leader_state
  = iteration_body script_config michalewicz quarter_step_draws leader_state.
Proof.
  intros order.
  assert (Hperm : Permutation order (seq 0 (length (swarm leader_state))))
    by apply Permutation_sym, Permutation_rev.
  split; [exact Hperm|].
  exact (proj2 (proj2 (iteration_order_independent script_config michalewicz
                         order quarter_step_draws leader_state Hperm))).
Defined.

(** ** The loop *)

(** The loop always ends, in a state of the run. *)
Lemma while_loop_reachable (cfg : Config) (objective : vec -> R)
    (init_draws : nat -> nat -> R) (draws : nat -> step_draws) (remaining : nat)
    (st : State) :
  reachable cfg objective init_draws st ->
  exists st' : State,
    while_loop cfg objective remaining draws st = Ok st' /\
    reachable cfg objective init_draws st'.
Proof.
  revert st; induction remaining as [|n IH]; intros st Hr; simpl.
  - now exists st.
  - destruct (iteration_body_spec cfg objective (draws (iterations st)) st
                (reachable_synchronized _ _ _ _ Hr)) as (st1 & E & _).
    rewrite E.
    assert (Hr1 : reachable cfg objective init_draws st1)
      by (eapply reach_body; eassumption).
    destruct (stop_criterion cfg st1).
    + eexists. split; [reflexivity|]. now apply reach_found.
    + apply IH. now apply reach_next.
Qed.

Lemma pso_loop_reachable (cfg : Config) (objective : vec -> R)
    (init_draws : nat -> nat -> R) (draws : nat -> step_draws) :
  (0 < NUM_PARTICLES cfg)%nat ->
  exists st : State,
    pso_loop cfg objective init_draws draws = Ok st /\
    reachable cfg objective init_draws st.
Proof.
  intros HN. unfold pso_loop.
  destruct (initial_state_ok cfg objective init_draws HN) as (st0 & E).
  rewrite E. apply while_loop_reachable. now apply reach_init.
Qed.

(** The loop is left either by the stop criterion, or with [iterations]
    advanced by the number of iterations that were left. *)
Lemma while_loop_exit (cfg : Config) (objective : vec -> R)
    (draws : nat -> step_draws) (remaining : nat) (st st' : State) :
  global_min_found st = false ->
  while_loop cfg objective remaining draws st = Ok st' ->
  (global_min_found st' = true /\ stop_criterion cfg st' = true /\
   (iterations st' < iterations st + remaining)%nat) \/
  (global_min_found st' = false /\
   iterations st' = (iterations st + remaining)%nat).
Proof.
  revert st; induction remaining as [|n IH]; intros st Hf H; simpl in H.
  - injection H as <-. right. split; [exact Hf|lia].
  - unfold iteration_body in H.
    destruct recompute_global_best as [[gbp gbv]|e]; [|discriminate].
    match type of H with
    | (if stop_criterion cfg ?s then _ else _) = _ =>
        set (st1 := s) in *; destruct (stop_criterion cfg st1) eqn:Estop
    end.
    + injection H as <-. left. split; [reflexivity|]. split; [exact Estop|].
      simpl. lia.
    + apply IH in H; [|exact Hf]. simpl in H.
      destruct H as [(H1 & H2 & H3)|(H1 & H2)]; [left|right]; repeat split;
        try assumption; lia.
Qed.

(** C8: with [MAX_ITERATIONS = 0] (and at least one particle) the loop is
    left at once, without the stop criterion having fired: no iteration is
    made, so the state in which the loop is left is the initial one
    ([iterations = 0 = MAX_ITERATIONS], [global_min_found] not set, empty
    histories, the swarm as it was sampled), and the global best it holds is
    the least of the initial personal bests, taken from a particle of the
    initial swarm. *)
Theorem zero_iterations_exhausted (cfg : Config) (objective : vec -> R)
    (init_draws : nat -> nat -> R) (draws : nat -> step_draws) :
  MAX_ITERATIONS cfg = 0%nat ->
  (0 < NUM_PARTICLES cfg)%nat ->
  exists st0 : State,
    initial_state cfg objective init_draws = Ok st0 /\
    pso_loop cfg objective init_draws draws = Ok st0 /\
    global_min_found st0 = false /\
    iterations st0 = 0%nat /\
    iterations st0 = MAX_ITERATIONS cfg /\
    best_values_history st0 = [] /\
    avg_values_history st0 = [] /\
    diversity_history st0 = [] /\
    swarm st0 = initial_swarm cfg objective init_draws /\
    is_min_best (global_best_value st0) (initial_swarm cfg objective init_draws) /\
    exists m : Particle,
      In m (initial_swarm cfg objective init_draws) /\
      global_best_position st0 = best_position m /\
      global_best_value st0 = best_value m.
Proof.
  intros Hmax HN.
  destruct (initial_state_ok cfg objective init_draws HN) as (st0 & E).
  destruct (initial_state_spec _ _ _ _ E)
    as (Esw & Hb & Ha & Hd & Hit & (m & Hm & Egp & Egv) & _ & Hmin).
  assert (Eloop : pso_loop cfg objective init_draws draws = Ok st0).
  { unfold pso_loop. rewrite E, Hmax. reflexivity. }
  exists st0. split; [exact E|]. split; [exact Eloop|].
  split.
  { unfold initial_state in E. destruct py_min; [|discriminate].
    injection E as <-. reflexivity. }
  split; [exact Hit|]. split; [now rewrite Hit, Hmax|].
  split; [exact Hb|]. split; [exact Ha|]. split; [exact Hd|].
  split; [exact Esw|]. split; [now rewrite <- Esw|].
  exists m. rewrite <- Esw. auto.
Qed.

(** The script's constants with [MAX_ITERATIONS = 0]: the loop is left in
    the initial state of the run above, with the global best 0. *)
Lemma zero_iterations_exhausted_witness :
  MAX_ITERATIONS zero_iterations_config = 0%nat /\
  (0 < NUM_PARTICLES zero_iterations_config)%nat /\
  pso_loop zero_iterations_config michalewicz leader_init_draws
    (fun _ => quarter_step_draws) = Ok leader_state /\
  global_best_value leader_state = 0.
Proof.
  assert (H1 : MAX_ITERATIONS zero_iterations_config = 0%nat) by reflexivity.
  assert (H2 : (0 < NUM_PARTICLES zero_iterations_config)%nat) by (simpl; lia).
  split; [exact H1|]. split; [exact H2|]. split; [|reflexivity].
  destruct (zero_iterations_exhausted zero_iterations_config michalewicz
              leader_init_draws (fun _ => quarter_step_draws) H1 H2)
    as (st0 & E0 & Eloop & _).
  assert (E : initial_state zero_iterations_config michalewicz leader_init_draws
              = Ok leader_state) by exact leader_initial_state.
  rewrite E in E0. injection E0 as <-. exact Eloop.
Defined.

(** ** Zero coefficients *)

Lemma vscale_zero (v : vec) : vscale 0 v = np_zeros (length v).
Proof.
  unfold vscale, np_zeros. induction v as [|x v IH]; simpl; [reflexivity|].
  rewrite IH. f_equal. ring.
Qed.

Lemma vmul_zeros (n : nat) (v : vec) :
  vmul (np_zeros n) v = np_zeros (Nat.min n (length v)).
Proof.
  unfold vmul, np_zeros. revert v; induction n as [|n IH]; intros [|x v]; simpl;
    try reflexivity.
  rewrite IH. f_equal. ring.
Qed.

Lemma vadd_zeros_r (n : nat) (v : vec) : length v = n -> vadd v (np_zeros n) = v.
Proof.
  unfold vadd, np_zeros. revert n; induction v as [|x v IH]; intros [|n] H;
    simpl in *; try discriminate; try reflexivity.
  rewrite IH by lia. f_equal. ring.
Qed.

Lemma np_clip_idem (v : vec) (lo hi : R) :
  np_clip (np_clip v lo hi) lo hi = np_clip v lo hi.
Proof.
  unfold np_clip. rewrite map_map. apply map_ext. intros x. apply clip1_idem.
Qed.

Lemma np_clip_in_bounds (cfg : Config) (v : vec) :
  in_bounds cfg v -> np_clip v (X_MIN cfg) (X_MAX cfg) = v.
Proof.
  unfold np_clip. induction 1 as [|x v Hx _ IH]; simpl; [reflexivity|].
  now rewrite IH, clip1_inside.
Qed.

Lemma in_bounds_np_uniform (cfg : Config) (u : nat -> R) :
  X_MIN cfg <= X_MAX cfg -> (forall i : nat, 0 <= u i < 1) ->
  in_bounds cfg (np_uniform (X_MIN cfg) (X_MAX cfg) (NUM_DIMENSIONS cfg) u).
Proof.
  intros Hb Hu. apply Forall_forall. intros x Hx.
  unfold np_uniform in Hx. apply in_map_iff in Hx as (k & <- & _).
  specialize (Hu k). nra.
Qed.

Section ZeroCoefficients.

Variable cfg : Config.
Variable objective : vec -> R.
Hypothesis inertia_zero : INERTIA_WEIGHT cfg = 0.
Hypothesis cognitive_zero : COGNITIVE_CONST cfg = 0.
Hypothesis social_zero : SOCIAL_CONST cfg = 0.

Lemma velocity_zero_after_update (p : Particle) (g : vec) (u1 u2 : nat -> R) :
  well_shaped cfg p -> length g = NUM_DIMENSIONS cfg ->
  velocity (update_velocity cfg p g u1 u2) = np_zeros (NUM_DIMENSIONS cfg).
Proof.
  intros (Hp & Hv & Hb) Hg. unfold update_velocity; cbn [velocity].
  rewrite inertia_zero, cognitive_zero, social_zero, !vscale_zero, !vmul_zeros.
  rewrite Hv, !length_np_uniform.
  replace (length (vsub (best_position p) (position p))) with (NUM_DIMENSIONS cfg)
    by vlen.
  replace (length (vsub g (position p))) with (NUM_DIMENSIONS cfg) by vlen.
  rewrite Nat.min_id.
  rewrite (vadd_zeros_r _ (np_zeros (NUM_DIMENSIONS cfg)))
    by apply length_np_zeros.
  apply vadd_zeros_r, length_np_zeros.
Qed.

Lemma position_after_update_particle (p : Particle) (g : vec)
    (d : (nat -> R) * (nat -> R)) :
  well_shaped cfg p -> length g = NUM_DIMENSIONS cfg ->
  position (update_particle cfg objective g d p)
  = np_clip (position p) (X_MIN cfg) (X_MAX cfg).
Proof.
  intros Hws Hg. unfold update_particle.
  rewrite position_update_position, velocity_zero_after_update by assumption.
  cbn [update_velocity position]. rewrite vadd_zeros_r; [reflexivity|apply Hws].
Qed.

Lemma well_shaped_update_particle (p : Particle) (g : vec)
    (d : (nat -> R) * (nat -> R)) :
  well_shaped cfg p -> length g = NUM_DIMENSIONS cfg ->
  well_shaped cfg (update_particle cfg objective g d p).
Proof.
  intros Hws Hg. unfold update_particle.
  now apply well_shaped_update_position, well_shaped_update_velocity.
Qed.

(** A particle at rest inside the bounds whose record is not beaten by its
    own position is left as it is. *)
Lemma update_particle_fixed (p : Particle) (g : vec) (d : (nat -> R) * (nat -> R)) :
  well_shaped cfg p -> length g = NUM_DIMENSIONS cfg ->
  velocity p = np_zeros (NUM_DIMENSIONS cfg) ->
  in_bounds cfg (position p) ->
  ~ objective (position p) < best_value p ->
  update_particle cfg objective g d p = p.
Proof.
  intros Hws Hg Hv Hin Hbest.
  pose proof (position_after_update_particle p g d Hws Hg) as Epos.
  rewrite np_clip_in_bounds in Epos by assumption.
  assert (Evel : velocity (update_particle cfg objective g d p) = velocity p).
  { unfold update_particle.
    now rewrite velocity_update_position, velocity_zero_after_update. }
  unfold update_particle in *.
  destruct (best_update_position cfg objective
              (update_velocity cfg p g (fst d) (snd d))) as [(H & _)|(_ & E1 & E2)].
  - rewrite Epos in H. simpl in H. tauto.
  - cbn [update_velocity best_position best_value] in E1, E2.
    destruct (update_position cfg objective _) as [a b c e], p as [a' b' c' e'].
    simpl in *. congruence.
Qed.

End ZeroCoefficients.

Lemma for_particles_fixed (cfg : Config) (objective : vec -> R) (g : vec)
    (d : step_draws) (sw : list Particle) (i : nat) :
  (forall (p : Particle) (k : nat), In p sw ->
     update_particle cfg objective g (d k) p = p) ->
  for_particles cfg objective g d i sw = sw.
Proof.
  revert i; induction sw as [|p sw IH]; intros i H; simpl; [reflexivity|].
  rewrite H by now left. f_equal. apply IH. intros q k Hq. apply H. now right.
Qed.

(** C9: with [INERTIA_WEIGHT = COGNITIVE_CONST = SOCIAL_CONST = 0], any
    velocity update gives the zero vector; a second update of a particle
    leaves its position where the first one put it; and in a run (bounds in
    order, unit draws in [0,1)) every state has the swarm of the initial
    state, with zero velocities, and the initial global best. *)
Theorem zero_coefficients_freeze (cfg : Config) (objective : vec -> R)
    (init_draws : nat -> nat -> R) (st0 st : State) :
  INERTIA_WEIGHT cfg = 0 -> COGNITIVE_CONST cfg = 0 -> SOCIAL_CONST cfg = 0 ->
  X_MIN cfg <= X_MAX cfg ->
  (forall k i : nat, 0 <= init_draws k i < 1) ->
  initial_state cfg objective init_draws = Ok st0 ->
  reachable cfg objective init_draws st ->
  (forall (p : Particle) (g : vec) (u1 u2 : nat -> R),
     well_shaped cfg p -> length g = NUM_DIMENSIONS cfg ->
     velocity (update_velocity cfg p g u1 u2) = np_zeros (NUM_DIMENSIONS cfg)) /\
  (forall (p : Particle) (g g' : vec) (d d' : (nat -> R) * (nat -> R)),
     well_shaped cfg p -> length g = NUM_DIMENSIONS cfg ->
     length g' = NUM_DIMENSIONS cfg ->
     position (update_particle cfg objective g' d'
                 (update_particle cfg objective g d p))
     = position (update_particle cfg objective g d p)) /\
  swarm st = swarm st0 /\
  Forall (fun p => velocity p = np_zeros (NUM_DIMENSIONS cfg)) (swarm st) /\
  global_best_value st = global_best_value st0 /\
  global_best_position st = global_best_position st0.
Proof.
  intros Hw Hc1 Hc2 Hb Hu E0 Hr.
  split; [intros; now apply velocity_zero_after_update|].
  split.
  { intros p g g' d d' Hws Hg Hg'.
    rewrite !(position_after_update_particle cfg objective Hw Hc1 Hc2);
      try assumption; [apply np_clip_idem|].
    now apply well_shaped_update_particle. }
  destruct (initial_state_spec _ _ _ _ E0)
    as (Esw & _ & _ & _ & _ & (m & Hm & Egp & _) & _).
  assert (Hinit : forall p : Particle, In p (swarm st0) ->
            well_shaped cfg p /\ velocity p = np_zeros (NUM_DIMENSIONS cfg) /\
            in_bounds cfg (position p) /\ ~ objective (position p) < best_value p).
  { intros p Hp. rewrite Esw in Hp.
    apply in_initial_swarm in Hp as (k & ->).
    split; [apply well_shaped_init|]. split; [reflexivity|].
    split; [apply in_bounds_np_uniform; auto|]. simpl. lra. }
  assert (Hg0 : length (global_best_position st0) = NUM_DIMENSIONS cfg).
  { rewrite Egp. apply (Hinit m Hm). }
  assert (Hfrozen : swarm st = swarm st0 /\
                    global_best_value st = global_best_value st0 /\
                    global_best_position st = global_best_position st0).
  { induction Hr as [st0' H|st st1 d Hr IH H|st _ IH|st _ IH].
    - rewrite E0 in H. injection H as <-. auto.
    - destruct IH as (IH1 & IH2 & IH3).
      pose proof (reachable_synchronized _ _ _ _ Hr) as Hs.
      assert (Emid : mid_step cfg objective d st = swarm st).
      { unfold mid_step. apply for_particles_fixed. intros p k Hp.
        rewrite IH1 in Hp. destruct (Hinit p Hp) as (H1 & H2 & H3 & H4).
        apply update_particle_fixed; try assumption. now rewrite IH3. }
      unfold iteration_body in H. rewrite Emid in H.
      destruct (recompute_global_best_spec (swarm st) (global_best_position st)
                  (global_best_value st) (proj1 Hs))
        as (q & Hq & Hle & [(Hlt & E)|(_ & E)]).
      + exfalso. destruct Hs as (_ & Hall & _). specialize (Hall q Hq). lra.
      + rewrite E in H. injection H as <-. simpl. auto.
    - exact IH.
    - exact IH. }
  destruct Hfrozen as (F1 & F2 & F3).
  split; [exact F1|]. split; [|split; assumption].
  rewrite F1. apply Forall_forall. intros p Hp. apply (Hinit p Hp).
Qed.

(** The run above with all three coefficients set to zero. *)
Lemma zero_coefficients_freeze_witness :
  INERTIA_WEIGHT zero_coefficients_config = 0 /\
  COGNITIVE_CONST zero_coefficients_config = 0 /\
  SOCIAL_CONST zero_coefficients_config = 0 /\
  X_MIN zero_coefficients_config <= X_MAX zero_coefficients_config /\
  (forall k i : nat, 0 <= leader_init_draws k i < 1) /\
  initial_state zero_coefficients_config michalewicz leader_init_draws
  = Ok leader_state /\
  exists st : State,
    pso_loop zero_coefficients_config michalewicz leader_init_draws
      (fun _ => quarter_step_draws) = Ok st /\
    swarm st = swarm leader_state /\ global_best_value st = 0.
Proof.
  assert (Hb : X_MIN zero_coefficients_config <= X_MAX zero_coefficients_config).
  { simpl. pose proof PI_RGT_0. lra. }
  assert (Hu : forall k i : nat, 0 <= leader_init_draws k i < 1).
  { intros [|k] i; simpl; [|lra].
    destruct i as [|[|[|[|i]]]]; lra. }
  assert (E0 : initial_state zero_coefficients_config michalewicz leader_init_draws
               = Ok leader_state) by exact leader_initial_state.
  repeat (split; [first [reflexivity | assumption]|]).
  destruct (pso_loop_reachable zero_coefficients_config michalewicz
              leader_init_draws (fun _ => quarter_step_draws)) as (st & E & Hr);
    [simpl; lia|].
  exists st. split; [exact E|].
  destruct (zero_coefficients_freeze zero_coefficients_config michalewicz
              leader_init_draws leader_state st eq_refl eq_refl eq_refl Hb Hu E0 Hr)
    as (_ & _ & F1 & _ & F2 & _).
  split; [exact F1|exact F2].
Defined.

(** ** The range of the objective *)

Lemma even_power_range (y : R) (m : nat) : -1 <= y <= 1 -> 0 <= y ^ (2 * m) <= 1.
Proof.
  intros Hy. rewrite pow_mult.
  assert (H2 : 0 <= y ^ 2 <= 1) by (simpl; nra).
  split; [apply pow_le; lra|].
  rewrite <- (pow1 m). apply pow_incr. lra.
Qed.

Lemma michalewicz_term_range (xi : R) (i m : nat) :
  0 <= xi <= PI ->
  0 <= sin xi * sin ((INR (i + 1) * xi ^ 2) / PI) ^ (2 * m) <= 1.
Proof.
  intros Hx.
  assert (H1 : 0 <= sin xi <= 1).
  { split; [apply sin_ge_0; lra|]. apply SIN_bound. }
  pose proof (even_power_range (sin ((INR (i + 1) * xi ^ 2) / PI)) m
                (SIN_bound _)) as H2.
  nra.
Qed.

Lemma michalewicz_loop_range (m : nat) (x : vec) (i : nat) (total : R) :
  Forall (fun xi => 0 <= xi <= PI) x ->
  total <= michalewicz_loop m x i total <= total + INR (length x).
Proof.
  intros H. revert i total.
  induction H as [|xi x Hx _ IH]; intros i total.
  - simpl. lra.
  - cbn [michalewicz_loop length]. rewrite S_INR.
    pose proof (michalewicz_term_range xi i m Hx) as Ht.
    specialize (IH (S i) (total + sin xi * sin ((INR (i + 1) * xi ^ 2) / PI) ^ (2 * m))).
    lra.
Qed.

Lemma michalewicz_range (x : vec) :
  Forall (fun xi => 0 <= xi <= PI) x ->
  - INR (length x) <= michalewicz x <= 0.
Proof.
  intros H. unfold michalewicz, michalewicz_m.
  pose proof (michalewicz_loop_range 10 x 0 0 H). lra.
Qed.

Lemma in_bounds_np_clip (cfg : Config) (v : vec) :
  X_MIN cfg <= X_MAX cfg -> in_bounds cfg (np_clip v (X_MIN cfg) (X_MAX cfg)).
Proof.
  intros Hb. apply Forall_forall. intros x Hx. unfold np_clip in Hx.
  apply in_map_iff in Hx as (y & <- & _). now apply clip1_range.
Qed.

Lemma in_box_init (cfg : Config) (objective : vec -> R) (u : nat -> R) :
  X_MIN cfg <= X_MAX cfg -> (forall i : nat, 0 <= u i < 1) ->
  in_box cfg objective (Particle_init cfg objective u).
Proof.
  intros Hb Hu. split; [apply well_shaped_init|].
  split; [now apply in_bounds_np_uniform|].
  split; [now apply in_bounds_np_uniform|reflexivity].
Qed.

Lemma in_box_update_particle (cfg : Config) (objective : vec -> R) (g : vec)
    (d : (nat -> R) * (nat -> R)) (p : Particle) :
  X_MIN cfg <= X_MAX cfg -> length g = NUM_DIMENSIONS cfg ->
  in_box cfg objective p -> in_box cfg objective (update_particle cfg objective g d p).
Proof.
  intros Hb Hg (Hws & Hpos & Hbest & Hc). unfold update_particle.
  set (q := update_velocity cfg p g (fst d) (snd d)).
  assert (Hq : well_shaped cfg q) by now apply well_shaped_update_velocity.
  assert (Hin : in_bounds cfg (position (update_position cfg objective q))).
  { rewrite position_update_position. now apply in_bounds_np_clip. }
  split; [now apply well_shaped_update_position|]. split; [exact Hin|].
  split.
  - destruct (best_update_position cfg objective q) as [(_ & E & _)|(_ & E & _)];
      rewrite E; assumption.
  - apply consistent_update_position. exact Hc.
Qed.

(** Inside the box [0, pi] every personal best is between [-D] and [0]. *)
Lemma in_box_best_value (cfg : Config) (p : Particle) :
  X_MIN cfg = 0 -> X_MAX cfg = PI -> in_box cfg michalewicz p ->
  - INR (NUM_DIMENSIONS cfg) <= best_value p <= 0.
Proof.
  intros Hlo Hhi ((_ & _ & Hlen) & _ & Hbest & Hc).
  rewrite Hc, <- Hlen. apply michalewicz_range.
  unfold in_bounds in Hbest. now rewrite Hlo, Hhi in Hbest.
Qed.

Lemma reachable_in_box (cfg : Config) (objective : vec -> R)
    (init_draws : nat -> nat -> R) (st : State) :
  X_MIN cfg <= X_MAX cfg ->
  (forall k i : nat, 0 <= init_draws k i < 1) ->
  reachable cfg objective init_draws st ->
  (forall p : Particle, In p (swarm st) -> in_box cfg objective p) /\
  length (global_best_position st) = NUM_DIMENSIONS cfg.
Proof.
  intros Hb Hu. induction 1 as [st0 H|st st1 d Hr IH H|st _ IH|st _ IH].
  - destruct (initial_state_spec _ _ _ _ H)
      as (Esw & _ & _ & _ & _ & (m & Hm & Egp & _) & _).
    assert (Hall : forall p : Particle, In p (swarm st0) -> in_box cfg objective p).
    { intros p Hp. rewrite Esw in Hp. apply in_initial_swarm in Hp as (k & ->).
      now apply in_box_init. }
    split; [exact Hall|]. rewrite Egp. apply (Hall m Hm).
  - destruct IH as (Hall & Hg).
    pose proof (reachable_synchronized _ _ _ _ Hr) as Hs.
    assert (Hmid : forall p : Particle, In p (mid_step cfg objective d st) ->
                     in_box cfg objective p).
    { intros q Hq. apply in_for_particles in Hq as (p & k & Hp & ->).
      apply in_box_update_particle; auto. }
    unfold iteration_body in H.
    destruct (recompute_global_best_spec (mid_step cfg objective d st)
                (global_best_position st) (global_best_value st)
                (mid_step_nonempty cfg objective d st (proj1 Hs)))
      as (m & Hm & _ & [(_ & E)|(_ & E)]); rewrite E in H; injection H as <-; simpl.
    + split; [exact Hmid|]. apply (Hmid m Hm).
    + split; [exact Hmid|exact Hg].
  - exact IH.
  - exact IH.
Qed.

(** C10: on arrays with every coordinate in [0, pi] the objective (with
    [m = 10]) lies between minus the dimension and [0]; and in a run with
    [X_MIN = 0], [X_MAX = pi] and unit draws in [0,1), every [best_value] and
    the [global_best_value] lie between [-NUM_DIMENSIONS] and [0]. *)
Theorem best_values_in_range :
  (forall x : vec, Forall (fun xi => 0 <= xi <= PI) x ->
     - INR (length x) <= michalewicz x <= 0) /\
  (forall (cfg : Config) (init_draws : nat -> nat -> R) (st : State),
     X_MIN cfg = 0 -> X_MAX cfg = PI ->
     (forall k i : nat, 0 <= init_draws k i < 1) ->
     reachable cfg michalewicz init_draws st ->
     (forall p : Particle, In p (swarm st) ->
        - INR (NUM_DIMENSIONS cfg) <= best_value p <= 0) /\
     - INR (NUM_DIMENSIONS cfg) <= global_best_value st <= 0).
Proof.
  split; [exact michalewicz_range|].
  intros cfg init_draws st Hlo Hhi Hu Hr.
  assert (Hb : X_MIN cfg <= X_MAX cfg).
  { rewrite Hlo, Hhi. pose proof PI_RGT_0. lra. }
  destruct (reachable_in_box cfg michalewicz init_draws st Hb Hu Hr) as (Hall & _).
  assert (Hbv : forall p : Particle, In p (swarm st) ->
                  - INR (NUM_DIMENSIONS cfg) <= best_value p <= 0).
  { intros p Hp. apply in_box_best_value; auto. }
  split; [exact Hbv|].
  destruct (reachable_synchronized _ _ _ _ Hr) as (_ & _ & m & Hm & <-).
  now apply Hbv.
Qed.

(** The global best at the end of the run above. *)
Lemma best_values_in_range_witness :
  X_MIN script_config = 0 /\ X_MAX script_config = PI /\
  (forall k i : nat, 0 <= leader_init_draws k i < 1) /\
  exists st : State,
    pso_loop script_config michalewicz leader_init_draws
      (fun _ => quarter_step_draws) = Ok st /\
    - 5 <= global_best_value st <= 0.
Proof.
  assert (Hu : forall k i : nat, 0 <= leader_init_draws k i < 1).
  { intros [|k] i; simpl; [|lra].
    destruct i as [|[|[|[|i]]]]; lra. }
  split; [reflexivity|]. split; [reflexivity|]. split; [exact Hu|].
  destruct (pso_loop_reachable script_config michalewicz leader_init_draws
              (fun _ => quarter_step_draws)) as (st & E & Hr); [simpl; lia|].
  exists st. split; [exact E|].
  destruct (proj2 best_values_in_range script_config leader_init_draws st
              eq_refl eq_refl Hu Hr) as (_ & H).
  simpl in H. lra.
Defined.

(** ** Leaving the loop *)

Lemma stop_criterion_true (cfg : Config) (st : State) :
  stop_criterion cfg st = true <-> within_tolerance cfg (global_best_value st).
Proof.
  unfold stop_criterion, within_tolerance.
  destruct Rle_dec as [Hle|Hn]; split; intros H.
  - exact Hle.
  - reflexivity.
  - discriminate H.
  - contradiction.
Qed.

Lemma stop_criterion_false (cfg : Config) (st : State) :
  stop_criterion cfg st = false <-> ~ within_tolerance cfg (global_best_value st).
Proof.
  rewrite <- stop_criterion_true.
  destruct (stop_criterion cfg st); split; intros H.
  - discriminate H.
  - now destruct H.
  - discriminate.
  - reflexivity.
Qed.

(** What the body of an iteration does to the bookkeeping. *)
Lemma iteration_body_bookkeeping (cfg : Config) (objective : vec -> R)
    (d : step_draws) (st st1 : State) :
  iteration_body cfg objective d st = Ok st1 ->
  swarm st1 = mid_step cfg objective d st /\
  best_values_history st1 = best_values_history st ++ [global_best_value st1] /\
  avg_values_history st1
  = avg_values_history st ++ [np_mean (map best_value (swarm st1))] /\
  diversity_history st1 = diversity_history st ++ [diversity cfg (swarm st1)] /\
  iterations st1 = iterations st /\
  global_min_found st1 = global_min_found st.
Proof.
  unfold iteration_body.
  destruct recompute_global_best as [[gbp gbv]|e]; [|discriminate].
  intros H. injection H as <-. simpl. repeat split.
Qed.

(** The loop stops at the first iteration whose global best is within the
    tolerance, and otherwise runs until [iterations] has grown by
    [remaining]. *)
Lemma while_loop_trace (cfg : Config) (objective : vec -> R)
    (draws : nat -> step_draws) (remaining : nat) (st st' : State) :
  global_min_found st = false ->
  length (best_values_history st) = iterations st ->
  (forall x : R, In x (best_values_history st) -> ~ within_tolerance cfg x) ->
  while_loop cfg objective remaining draws st = Ok st' ->
  (global_min_found st' = true /\
   within_tolerance cfg (global_best_value st') /\
   (iterations st' < iterations st + remaining)%nat /\
   exists h0 : list R,
     best_values_history st' = h0 ++ [global_best_value st'] /\
     length h0 = iterations st' /\
     forall x : R, In x h0 -> ~ within_tolerance cfg x) \/
  (global_min_found st' = false /\
   iterations st' = (iterations st + remaining)%nat /\
   length (best_values_history st') = iterations st' /\
   forall x : R, In x (best_values_history st') -> ~ within_tolerance cfg x).
Proof.
  revert st; induction remaining as [|n IH]; intros st Hf Hlen Hno H; simpl in H.
  - injection H as <-. right. repeat split; try assumption. lia.
  - destruct (iteration_body cfg objective (draws (iterations st)) st)
      as [st1|e] eqn:Ebody; [|discriminate].
    destruct (iteration_body_bookkeeping _ _ _ _ _ Ebody)
      as (_ & Eh & _ & _ & Eit & Efound).
    destruct (stop_criterion cfg st1) eqn:Estop.
    + injection H as <-. left. split; [reflexivity|].
      split; [now apply stop_criterion_true|]. simpl. split; [lia|].
      exists (best_values_history st). repeat split; try assumption. congruence.
    + apply IH in H.
      * simpl in H. rewrite Eit in H.
        destruct H as [(H1 & H2 & H3 & H4)|(H1 & H2 & H3 & H4)]; [left|right];
          repeat split; try assumption; lia.
      * simpl. congruence.
      * simpl. rewrite Eh, length_app. simpl. lia.
      * simpl. rewrite Eh. intros x Hx.
        apply in_app_or in Hx as [Hx|[<-|[]]]; [now apply Hno|].
        now apply stop_criterion_false.
Qed.

Lemma initial_state_flags (cfg : Config) (objective : vec -> R)
    (init_draws : nat -> nat -> R) (st0 : State) :
  initial_state cfg objective init_draws = Ok st0 ->
  global_min_found st0 = false /\ iterations st0 = 0%nat /\
  best_values_history st0 = [].
Proof.
  unfold initial_state. destruct py_min; [|discriminate].
  intros H. injection H as <-. auto.
Qed.

(** The two ways in which the loop of a run is left. *)
Lemma pso_loop_trace (cfg : Config) (objective : vec -> R)
    (init_draws : nat -> nat -> R) (draws : nat -> step_draws) (st : State) :
  pso_loop cfg objective init_draws draws = Ok st ->
  (global_min_found st = true /\
   within_tolerance cfg (global_best_value st) /\
   (iterations st < MAX_ITERATIONS cfg)%nat /\
   exists h0 : list R,
     best_values_history st = h0 ++ [global_best_value st] /\
     length h0 = iterations st /\
     forall x : R, In x h0 -> ~ within_tolerance cfg x) \/
  (global_min_found st = false /\
   iterations st = MAX_ITERATIONS cfg /\
   length (best_values_history st) = MAX_ITERATIONS cfg /\
   forall x : R, In x (best_values_history st) -> ~ within_tolerance cfg x).
Proof.
  unfold pso_loop.
  destruct (initial_state cfg objective init_draws) as [st0|e] eqn:E0;
    [|discriminate].
  destruct (initial_state_flags _ _ _ _ E0) as (Hf & Hit & Hh).
  intros H. apply while_loop_trace in H.
  - rewrite Hit, Nat.sub_0_r in H. simpl in H.
    destruct H as [H|(H1 & H2 & H3 & H4)]; [left; exact H|right].
    repeat split; try assumption. congruence.
  - exact Hf.
  - now rewrite Hh, Hit.
  - rewrite Hh. intros x [].
Qed.


(** ** The results row *)

Lemma py_last_snoc {A : Type} (l : list A) (x : A) : py_last (l ++ [x]) = Ok x.
Proof.
  induction l as [|y l IH]; [reflexivity|].
  simpl. destruct (l ++ [x]) eqn:E; [now destruct l|exact IH].
Qed.

Lemma py_last_ok {A : Type} (l : list A) (x : A) :
  py_last l = Ok x -> exists l0 : list A, l = l0 ++ [x].
Proof.
  induction l as [|y l IH]; [discriminate|].
  destruct l as [|z l].
  - simpl. intros H. injection H as <-. now exists [].
  - intros H. destruct (IH H) as (l0 & E). exists (y :: l0). simpl. now rewrite <- E.
Qed.

(** Between iterations the three histories have one entry per completed
    iteration, and their last entries describe the current swarm. *)
Lemma reachable_histories (cfg : Config) (objective : vec -> R)
    (init_draws : nat -> nat -> R) (st : State) :
  reachable cfg objective init_draws st ->
  length (avg_values_history st) = length (best_values_history st) /\
  length (diversity_history st) = length (best_values_history st) /\
  (best_values_history st = [] \/
   exists h a v : _,
     best_values_history st = h ++ [global_best_value st] /\
     avg_values_history st = a ++ [np_mean (map best_value (swarm st))] /\
     diversity_history st = v ++ [diversity cfg (swarm st)]).
Proof.
  induction 1 as [st0 H|st st1 d Hr IH H|st _ IH|st _ IH].
  - destruct (initial_state_spec _ _ _ _ H) as (_ & -> & -> & -> & _).
    split; [reflexivity|]. split; [reflexivity|]. now left.
  - destruct IH as (IH1 & IH2 & _).
    destruct (iteration_body_bookkeeping _ _ _ _ _ H) as (_ & Eh & Ea & Ed & _).
    rewrite Eh, Ea, Ed, !length_app. simpl. split; [lia|]. split; [lia|].
    right. do 3 eexists. repeat split; reflexivity.
  - exact IH.
  - exact IH.
Qed.

Lemma while_loop_stays_reachable (cfg : Config) (objective : vec -> R)
    (init_draws : nat -> nat -> R) (draws : nat -> step_draws) (remaining : nat)
    (st st' : State) :
  reachable cfg objective init_draws st ->
  while_loop cfg objective remaining draws st = Ok st' ->
  reachable cfg objective init_draws st'.
Proof.
  intros Hr H.
  destruct (while_loop_reachable cfg objective init_draws draws remaining st Hr)
    as (st'' & E & Hr'').
  congruence.
Qed.

Lemma pso_loop_ok_reachable (cfg : Config) (objective : vec -> R)
    (init_draws : nat -> nat -> R) (draws : nat -> step_draws) (st : State) :
  pso_loop cfg objective init_draws draws = Ok st ->
  reachable cfg objective init_draws st.
Proof.
  unfold pso_loop.
  destruct (initial_state cfg objective init_draws) as [st0|e] eqn:E0;
    [|discriminate].
  apply while_loop_stays_reachable. now apply reach_init.
Qed.

(** X1: when the loop of a run is left, either the stop criterion fired
    ([global_min_found], the last recorded global best is within the
    tolerance of [GLOBAL_MINIMUM], no earlier one was, and fewer than
    [MAX_ITERATIONS] iterations were counted), or the budget is exhausted
    ([iterations = MAX_ITERATIONS], one record per iteration, none of them
    within the tolerance).  In both cases the three histories have the same
    length. *)
Theorem pso_loop_exit (cfg : Config) (objective : vec -> R)
    (init_draws : nat -> nat -> R) (draws : nat -> step_draws) (st : State) :
  pso_loop cfg objective init_draws draws = Ok st ->
  length (avg_values_history st) = length (best_values_history st) /\
  length (diversity_history st) = length (best_values_history st) /\
  ((global_min_found st = true /\
    within_tolerance cfg (global_best_value st) /\
    (iterations st < MAX_ITERATIONS cfg)%nat /\
    exists h0 : list R,
      best_values_history st = h0 ++ [global_best_value st] /\
      length h0 = iterations st /\
      forall x : R, In x h0 -> ~ within_tolerance cfg x) \/
   (global_min_found st = false /\
    iterations st = MAX_ITERATIONS cfg /\
    length (best_values_history st) = MAX_ITERATIONS cfg /\
    forall x : R, In x (best_values_history st) -> ~ within_tolerance cfg x)).
Proof.
  intros E.
  destruct (reachable_histories _ _ _ _ (pso_loop_ok_reachable _ _ _ _ _ E))
    as (Ha & Hd & _).
  split; [exact Ha|]. split; [exact Hd|].
  exact (pso_loop_trace _ _ _ _ _ E).
Qed.

(** The run of the script above leaves the loop in one of the two ways. *)
Lemma pso_loop_exit_witness :
  exists st : State,
    pso_loop script_config michalewicz leader_init_draws
      (fun _ => quarter_step_draws) = Ok st /\
    (global_min_found st = true \/ iterations st = MAX_ITERATIONS script_config).
Proof.
  destruct (pso_loop_reachable script_config michalewicz leader_init_draws
              (fun _ => quarter_step_draws)) as (st & E & _); [simpl; lia|].
  exists st. split; [exact E|].
  destruct (pso_loop_exit script_config michalewicz leader_init_draws
              (fun _ => quarter_step_draws) st E)
    as (_ & _ & [(H & _)|(_ & H & _)]).
  - left. exact H.
  - right. exact H.
Defined.

(** X2: when [pso] produces its results row, the reported best value is
    the global best of the final state and the least personal best of the
    final swarm, and the reported mean and diversity are those of the final
    swarm.  The reported iteration count is the number of iterations made if
    the stop criterion fired, and one more than that ([MAX_ITERATIONS + 1])
    if the budget was exhausted. *)
Theorem pso_results (cfg : Config) (objective : vec -> R)
    (init_draws : nat -> nat -> R) (draws : nat -> step_draws) (r : Results) :
  pso cfg objective init_draws draws = Ok r ->
  exists st : State,
    pso_loop cfg objective init_draws draws = Ok st /\
    res_best_value r = global_best_value st /\
    is_min_best (res_best_value r) (swarm st) /\
    res_final_avg r = np_mean (map best_value (swarm st)) /\
    res_final_diversity r = diversity cfg (swarm st) /\
    (global_min_found st = true ->
       res_iterations r = length (best_values_history st)) /\
    (global_min_found st = false ->
       res_iterations r = S (length (best_values_history st)) /\
       res_iterations r = S (MAX_ITERATIONS cfg)).
Proof.
  unfold pso.
  destruct (pso_loop cfg objective init_draws draws) as [st|e] eqn:Eloop;
    [|discriminate].
  unfold build_results.
  destruct (py_last (avg_values_history st)) as [final_avg|e] eqn:Ea; [|discriminate].
  destruct (py_last (diversity_history st)) as [final_div|e] eqn:Ed; [|discriminate].
  intros H. injection H as <-. simpl.
  pose proof (pso_loop_ok_reachable _ _ _ _ _ Eloop) as Hr.
  exists st. split; [reflexivity|]. split; [reflexivity|].
  split; [apply (reachable_synchronized _ _ _ _ Hr)|].
  destruct (reachable_histories _ _ _ _ Hr) as (Hla & _ & [Hh|(h & a & v & Eh & Eav & Ev)]).
  { apply py_last_ok in Ea as (l0 & Ea). rewrite Ea, Hh, length_app in Hla.
    simpl in Hla. lia. }
  rewrite Eav, py_last_snoc in Ea. rewrite Ev, py_last_snoc in Ed.
  injection Ea as <-. injection Ed as <-.
  split; [reflexivity|]. split; [reflexivity|].
  destruct (pso_loop_trace _ _ _ _ _ Eloop)
    as [(Hf & _ & _ & h0 & Eh0 & Hl0 & _)|(Hf & Hit & Hlen & _)].
  - split; [|congruence]. intros _. rewrite Eh0, length_app. simpl. lia.
  - split; [congruence|]. intros _. rewrite Hlen, Hit. split; lia.
Qed.

Lemma pso_succeeds (cfg : Config) (objective : vec -> R)
    (init_draws : nat -> nat -> R) (draws : nat -> step_draws) :
  (0 < NUM_PARTICLES cfg)%nat -> (0 < MAX_ITERATIONS cfg)%nat ->
  exists r : Results, pso cfg objective init_draws draws = Ok r.
Proof.
  intros HN HM.
  destruct (pso_loop_reachable cfg objective init_draws draws HN) as (st & E & Hr).
  destruct (reachable_histories _ _ _ _ Hr)
    as (Hla & Hld & [Hh|(h & a & v & _ & Ea & Ev)]).
  - exfalso.
    destruct (pso_loop_trace _ _ _ _ _ E)
      as [(_ & _ & _ & h0 & Eh0 & _)|(_ & _ & Hlen & _)].
    + rewrite Hh in Eh0. now destruct h0.
    + rewrite Hh in Hlen. simpl in Hlen. lia.
  - unfold pso, build_results. rewrite E, Ea, Ev, !py_last_snoc. eauto.
Qed.

(** The results row of the run of the script above. *)
Lemma pso_results_witness :
  exists r : Results,
    pso script_config michalewicz leader_init_draws (fun _ => quarter_step_draws)
    = Ok r /\
    exists st : State,
      pso_loop script_config michalewicz leader_init_draws
        (fun _ => quarter_step_draws) = Ok st /\
      res_best_value r = global_best_value st.
Proof.
  destruct (pso_succeeds script_config michalewicz leader_init_draws
              (fun _ => quarter_step_draws)) as (r & E); [simpl; lia|simpl; lia|].
  exists r. split; [exact E|].
  destruct (pso_results script_config michalewicz leader_init_draws
              (fun _ => quarter_step_draws) r E) as (st & El & Eb & _).
  exists st. split; [exact El|exact Eb].
Defined.

(** X3: [pso] produces a results row exactly when there is at least one
    particle and at least one iteration; without particles it raises
    [ValueError] (from [min]), and with particles but without iterations
    [IndexError] (from the empty history). *)
Theorem pso_outcome (cfg : Config) (objective : vec -> R)
    (init_draws : nat -> nat -> R) (draws : nat -> step_draws) :
  (NUM_PARTICLES cfg = 0%nat ->
     pso cfg objective init_draws draws = Raise ValueError) /\
  ((0 < NUM_PARTICLES cfg)%nat -> MAX_ITERATIONS cfg = 0%nat ->
     pso cfg objective init_draws draws = Raise IndexError) /\
  ((exists r : Results, pso cfg objective init_draws draws = Ok r) <->
     (0 < NUM_PARTICLES cfg)%nat /\ (0 < MAX_ITERATIONS cfg)%nat).
Proof.
  assert (H0 : NUM_PARTICLES cfg = 0%nat ->
               pso cfg objective init_draws draws = Raise ValueError).
  { intros H. unfold pso, pso_loop, initial_state, initial_swarm. now rewrite H. }
  assert (H1 : (0 < NUM_PARTICLES cfg)%nat -> MAX_ITERATIONS cfg = 0%nat ->
               pso cfg objective init_draws draws = Raise IndexError).
  { intros HN HM.
    destruct (initial_state_ok cfg objective init_draws HN) as (st0 & E).
    destruct (initial_state_spec _ _ _ _ E) as (_ & _ & Ha & _).
    unfold pso, pso_loop. rewrite E, HM. simpl.
    unfold build_results. now rewrite Ha. }
  split; [exact H0|]. split; [exact H1|]. split.
  - intros (r & Hr).
    destruct (NUM_PARTICLES cfg) as [|n] eqn:EN.
    { rewrite H0 in Hr by reflexivity. discriminate. }
    destruct (MAX_ITERATIONS cfg) as [|m] eqn:EM.
    { rewrite H1 in Hr by (reflexivity || lia). discriminate. }
    split; lia.
  - intros (HN & HM). now apply pso_succeeds.
Qed.

(** ** Invariants of the swarm *)

Lemma reachable_swarm_length (cfg : Config) (objective : vec -> R)
    (init_draws : nat -> nat -> R) (st : State) :
  reachable cfg objective init_draws st -> length (swarm st) = NUM_PARTICLES cfg.
Proof.
  induction 1 as [st0 H|st st1 d Hr IH H|st _ IH|st _ IH].
  - destruct (initial_state_spec _ _ _ _ H) as (-> & _). apply length_initial_swarm.
  - destruct (iteration_body_bookkeeping _ _ _ _ _ H) as (-> & _).
    unfold mid_step. now rewrite length_for_particles.
  - exact IH.
  - exact IH.
Qed.

(** After [update_position] the record is at least as good as the value at
    the current position. *)
Lemma best_value_le_current (cfg : Config) (objective : vec -> R) (p : Particle) :
  best_value (update_position cfg objective p)
  <= objective (position (update_position cfg objective p)).
Proof.
  destruct (best_update_position cfg objective p) as [(_ & _ & E)|(H & _ & E)];
    rewrite E; lra.
Qed.

(** A particle whose record did not improve keeps its best position. *)
Lemma best_position_kept (cfg : Config) (objective : vec -> R) (g : vec)
    (d : (nat -> R) * (nat -> R)) (p : Particle) :
  best_value p <= best_value (update_particle cfg objective g d p) ->
  best_position (update_particle cfg objective g d p) = best_position p.
Proof.
  unfold update_particle. intros H.
  destruct (best_update_position cfg objective
              (update_velocity cfg p g (fst d) (snd d))) as [(Hlt & _ & E)|(_ & E & _)].
  - rewrite E in H. simpl in Hlt, H. lra.
  - exact E.
Qed.

(** X4: between iterations the swarm has [NUM_PARTICLES] particles, and
    for each of them the recorded [best_value] is at most the objective at
    its current position, so the global best is at most the objective at
    every current position. *)
Theorem personal_best_never_worse (cfg : Config) (objective : vec -> R)
    (init_draws : nat -> nat -> R) (st : State) :
  reachable cfg objective init_draws st ->
  length (swarm st) = NUM_PARTICLES cfg /\
  forall p : Particle, In p (swarm st) ->
    best_value p <= objective (position p) /\
    global_best_value st <= objective (position p).
Proof.
  intros Hr. split; [now apply (reachable_swarm_length cfg objective init_draws)|].
  assert (H : forall p : Particle, In p (swarm st) ->
                best_value p <= objective (position p)).
  { clear - Hr. induction Hr as [st0 H|st st1 d Hr IH H|st _ IH|st _ IH].
    - destruct (initial_state_spec _ _ _ _ H) as (-> & _).
      intros p Hp. apply in_initial_swarm in Hp as (k & ->). simpl. lra.
    - destruct (iteration_body_bookkeeping _ _ _ _ _ H) as (-> & _).
      intros q Hq. apply in_for_particles in Hq as (p & k & _ & ->).
      apply best_value_le_current.
    - exact IH.
    - exact IH. }
  intros p Hp. split; [now apply H|].
  destruct (reachable_synchronized _ _ _ _ Hr) as (_ & Hle & _).
  specialize (Hle p Hp). specialize (H p Hp). lra.
Qed.

(** Between iterations some particle holds the global best as its record. *)
Lemma reachable_global_record (cfg : Config) (objective : vec -> R)
    (init_draws : nat -> nat -> R) (st : State) :
  reachable cfg objective init_draws st ->
  exists p : Particle, In p (swarm st) /\
    best_position p = global_best_position st /\
    best_value p = global_best_value st.
Proof.
  induction 1 as [st0 H|st st1 d Hr IH H|st _ IH|st _ IH].
  - destruct (initial_state_spec _ _ _ _ H)
      as (_ & _ & _ & _ & _ & (m & Hm & E1 & E2) & _).
    exists m. auto.
  - destruct IH as (p0 & Hp0 & Ebp & Ebv).
    pose proof (reachable_synchronized _ _ _ _ Hr) as Hs.
    destruct (iteration_body_bookkeeping _ _ _ _ _ H) as (Esw & _).
    unfold iteration_body in H.
    destruct (recompute_global_best_spec (mid_step cfg objective d st)
                (global_best_position st) (global_best_value st)
                (mid_step_nonempty cfg objective d st (proj1 Hs)))
      as (m & Hm & Hle & [(_ & E)|(Hn & E)]); rewrite E in H;
      injection H as <-; simpl.
    + exists m. auto.
    + destruct (for_particles_in cfg objective (global_best_position st) d
                  (swarm st) 0 p0 Hp0) as (k & Hk).
      exists (update_particle cfg objective (global_best_position st) (d k) p0).
      split; [exact Hk|].
      pose proof (best_value_update_particle_le cfg objective
                    (global_best_position st) (d k) p0) as Hdown.
      pose proof (Hle _ Hk) as Hup.
      assert (Eq : best_value (update_particle cfg objective
                                 (global_best_position st) (d k) p0)
                   = best_value p0) by lra.
      split; [|congruence].
      rewrite best_position_kept; [exact Ebp|lra].
  - exact IH.
  - exact IH.
Qed.

(** X5: between iterations the global best is a record of the swarm: some
    particle has [global_best_position] as its best position and
    [global_best_value] as its best value, and [global_best_value] is the
    objective at [global_best_position]. *)
Theorem global_best_is_a_record (cfg : Config) (objective : vec -> R)
    (init_draws : nat -> nat -> R) (st : State) :
  reachable cfg objective init_draws st ->
  (exists p : Particle, In p (swarm st) /\
     best_position p = global_best_position st /\
     best_value p = global_best_value st) /\
  global_best_value st = objective (global_best_position st).
Proof.
  intros Hr.
  assert (Hcons : forall p : Particle, In p (swarm st) -> consistent objective p).
  { clear - Hr. induction Hr as [st0 H|st st1 d Hr IH H|st _ IH|st _ IH].
    - destruct (initial_state_spec _ _ _ _ H) as (-> & _).
      intros p Hp. apply in_initial_swarm in Hp as (k & ->). apply consistent_init.
    - destruct (iteration_body_bookkeeping _ _ _ _ _ H) as (-> & _).
      intros q Hq. apply in_for_particles in Hq as (p & k & Hp & ->).
      unfold update_particle. apply consistent_update_position.
      exact (IH p Hp).
    - exact IH.
    - exact IH. }
  pose proof (reachable_global_record _ _ _ _ Hr) as Hrec.
  split; [exact Hrec|].
  destruct Hrec as (p & Hp & <- & <-). now apply Hcons.
Qed.

(** At the end of the run of the script above. *)
Lemma personal_best_never_worse_witness :
  exists st : State,
    pso_loop script_config michalewicz leader_init_draws
      (fun _ => quarter_step_draws) = Ok st /\
    reachable script_config michalewicz leader_init_draws st /\
    length (swarm st) = 100%nat /\
    forall p : Particle, In p (swarm st) ->
      global_best_value st <= michalewicz (position p).
Proof.
  destruct (pso_loop_reachable script_config michalewicz leader_init_draws
              (fun _ => quarter_step_draws)) as (st & E & Hr); [simpl; lia|].
  exists st. split; [exact E|]. split; [exact Hr|].
  destruct (personal_best_never_worse script_config michalewicz leader_init_draws
              st Hr) as (Hlen & H).
  split; [exact Hlen|]. intros p Hp. apply (H p Hp).
Defined.

(** At the end of the run of the script above. *)
Lemma global_best_is_a_record_witness :
  exists st : State,
    pso_loop script_config michalewicz leader_init_draws
      (fun _ => quarter_step_draws) = Ok st /\
    reachable script_config michalewicz leader_init_draws st /\
    global_best_value st = michalewicz (global_best_position st).
Proof.
  destruct (pso_loop_reachable script_config michalewicz leader_init_draws
              (fun _ => quarter_step_draws)) as (st & E & Hr); [simpl; lia|].
  exists st. split; [exact E|]. split; [exact Hr|].
  apply (global_best_is_a_record script_config michalewicz leader_init_draws st Hr).
Defined.

(** ** The mean of the personal bests *)

Lemma np_mean_some (l : list R) :
  l <> [] -> np_mean l = Some (sum_list l / INR (length l)).
Proof. destruct l; [congruence|reflexivity]. Qed.

Lemma sum_list_lower (l : list R) (m : R) :
  (forall x : R, In x l -> m <= x) -> INR (length l) * m <= sum_list l.
Proof.
  induction l as [|x l IH]; intros H.
  - simpl. lra.
  - cbn [length sum_list fold_right]. rewrite S_INR.
    assert (m <= x) by (apply H; now left).
    assert (INR (length l) * m <= sum_list l) by (apply IH; intros y Hy; apply H; now right).
    unfold sum_list in *. lra.
Qed.

Lemma div_le_div (a b n : R) : 0 < n -> a <= b -> a / n <= b / n.
Proof.
  intros Hn Hab. unfold Rdiv. apply Rmult_le_compat_r; [|exact Hab].
  left. now apply Rinv_0_lt_compat.
Qed.

(** The mean of a non-empty list is at least any lower bound of it. *)
Lemma np_mean_lower (l : list R) (m : R) :
  l <> [] -> (forall x : R, In x l -> m <= x) ->
  exists a : R, np_mean l = Some a /\ m <= a.
Proof.
  intros Hne H. rewrite np_mean_some by assumption. eexists. split; [reflexivity|].
  assert (Hn : 0 < INR (length l)).
  { apply lt_0_INR. destruct l; [congruence|simpl; lia]. }
  replace m with (INR (length l) * m / INR (length l)) by (field; lra).
  apply div_le_div; [exact Hn|]. now apply sum_list_lower.
Qed.

Lemma sum_best_values_for_particles (cfg : Config) (objective : vec -> R)
    (g : vec) (d : step_draws) (sw : list Particle) (i : nat) :
  sum_list (map best_value (for_particles cfg objective g d i sw))
  <= sum_list (map best_value sw).
Proof.
  revert i; induction sw as [|p sw IH]; intros i; simpl; [lra|].
  pose proof (best_value_update_particle_le cfg objective g (d i) p).
  specialize (IH (S i)). unfold sum_list in *. lra.
Qed.

(** The mean of the personal bests does not go up in the [for] loop. *)
Lemma np_mean_mid_step (cfg : Config) (objective : vec -> R) (d : step_draws)
    (st : State) :
  swarm st <> [] ->
  exists a b : R,
    np_mean (map best_value (swarm st)) = Some a /\
    np_mean (map best_value (mid_step cfg objective d st)) = Some b /\
    b <= a.
Proof.
  intros Hne.
  assert (Hl : length (map best_value (mid_step cfg objective d st))
               = length (map best_value (swarm st))).
  { unfold mid_step. now rewrite !length_map, length_for_particles. }
  assert (Hn : 0 < INR (length (map best_value (swarm st)))).
  { apply lt_0_INR. rewrite length_map. destruct (swarm st); [congruence|simpl; lia]. }
  rewrite !np_mean_some.
  - do 2 eexists. split; [reflexivity|]. split; [reflexivity|].
    rewrite Hl. apply div_le_div; [exact Hn|].
    apply sum_best_values_for_particles.
  - intros E. apply (f_equal (@length R)) in E. rewrite Hl in E.
    rewrite E in Hn. simpl in Hn. lra.
  - intros E. rewrite E in Hn. simpl in Hn. lra.
Qed.

Lemma nonincreasing_means_snoc (l : list (option R)) (a b : R) :
  nonincreasing_means (l ++ [Some a]) -> b <= a ->
  nonincreasing_means ((l ++ [Some a]) ++ [Some b]).
Proof.
  intros Hl Hba i Hi. rewrite !length_app in Hi. simpl in Hi.
  destruct (Nat.eq_dec i (length l)) as [->|Hne].
  - exists a, b. split; [|split; [|exact Hba]].
    + rewrite app_nth1 by (rewrite length_app; simpl; lia).
      rewrite app_nth2 by lia. now rewrite Nat.sub_diag.
    + rewrite app_nth2 by (rewrite length_app; simpl; lia).
      rewrite length_app. cbn [length].
      replace (S (length l) - (length l + 1))%nat with 0%nat by lia. reflexivity.
  - rewrite !(app_nth1 (l ++ [Some a])) by (rewrite length_app; simpl; lia).
    apply Hl. rewrite length_app. simpl. lia.
Qed.

Lemma nonincreasing_means_single (o : option R) : nonincreasing_means [o].
Proof. intros i Hi. simpl in Hi. lia. Qed.

(** Every recorded mean is a number, at least the global best recorded with
    it, and the means never go up. *)
Lemma reachable_means (cfg : Config) (objective : vec -> R)
    (init_draws : nat -> nat -> R) (st : State) :
  reachable cfg objective init_draws st ->
  Forall2 (fun (b : R) (o : option R) => exists a : R, o = Some a /\ b <= a)
    (best_values_history st) (avg_values_history st) /\
  nonincreasing_means (avg_values_history st).
Proof.
  induction 1 as [st0 H|st st1 d Hr IH H|st _ IH|st _ IH].
  - destruct (initial_state_spec _ _ _ _ H) as (_ & -> & -> & _).
    split; [constructor|]. intros i Hi. simpl in Hi. lia.
  - destruct IH as (IH1 & IH2).
    pose proof (reachable_synchronized _ _ _ _ Hr) as Hs.
    destruct (iteration_body_spec cfg objective d st Hs)
      as (st1' & E & _ & _ & _ & _ & Hs1).
    assert (st1' = st1) by congruence. subst st1'.
    destruct (iteration_body_bookkeeping _ _ _ _ _ H) as (Esw & Eh & Ea & _).
    destruct (np_mean_mid_step cfg objective d st (proj1 Hs)) as (a & b & Em & Em1 & Hba).
    rewrite <- Esw in Em1.
    split.
    + rewrite Eh, Ea. apply Forall2_app; [exact IH1|].
      constructor; [|constructor].
      destruct Hs1 as (Hne & Hle & _).
      apply np_mean_lower.
      * intros E0. apply map_eq_nil in E0. contradiction.
      * intros x Hx. apply in_map_iff in Hx as (p & <- & Hp). now apply Hle.
    + rewrite Ea, Em1.
      destruct (reachable_histories _ _ _ _ Hr) as (_ & _ & [Hh|(h & a0 & v & _ & Ea0 & _)]).
      * assert (Hnil : avg_values_history st = []).
        { inversion IH1 as [E1 E2|? ? ? ? ? ? E1 E2]; [reflexivity|].
          rewrite Hh in E1. discriminate. }
        rewrite Hnil. apply nonincreasing_means_single.
      * rewrite Ea0, Em in *. now apply nonincreasing_means_snoc.
  - exact IH.
  - exact IH.
Qed.

(** X6: in every state between iterations, each recorded mean of the
    personal bests is a number (not [nan]) that is at least the global best
    recorded in the same iteration, and the recorded means never increase
    from one iteration to the next. *)
Theorem mean_history_bounds (cfg : Config) (objective : vec -> R)
    (init_draws : nat -> nat -> R) (st : State) :
  reachable cfg objective init_draws st ->
  length (avg_values_history st) = length (best_values_history st) /\
  (forall i : nat, (i < length (best_values_history st))%nat ->
     exists a : R, nth i (avg_values_history st) None = Some a /\
                   nth i (best_values_history st) 0 <= a) /\
  (forall i : nat, (S i < length (avg_values_history st))%nat ->
     exists a b : R, nth i (avg_values_history st) None = Some a /\
                     nth (S i) (avg_values_history st) None = Some b /\ b <= a).
Proof.
  intros Hr. destruct (reachable_means _ _ _ _ Hr) as (H1 & H2).
  split; [apply (reachable_histories _ _ _ _ Hr)|]. split; [|exact H2].
  clear H2 Hr. induction H1 as [|b o bs os (a & -> & Hba) _ IH]; intros i Hi.
  - simpl in Hi. lia.
  - destruct i as [|i]; simpl.
    + exists a. auto.
    + apply IH. simpl in Hi. lia.
Qed.

(** At the end of the run of the script above. *)
Lemma mean_history_bounds_witness :
  exists st : State,
    pso_loop script_config michalewicz leader_init_draws
      (fun _ => quarter_step_draws) = Ok st /\
    reachable script_config michalewicz leader_init_draws st /\
    length (avg_values_history st) = length (best_values_history st).
Proof.
  destruct (pso_loop_reachable script_config michalewicz leader_init_draws
              (fun _ => quarter_step_draws)) as (st & E & Hr); [simpl; lia|].
  exists st. split; [exact E|]. split; [exact Hr|].
  apply (mean_history_bounds script_config michalewicz leader_init_draws st Hr).
Defined.

(** ** The diversity of a run *)

Lemma sum_list_upper (l : list R) (m : R) :
  (forall x : R, In x l -> x <= m) -> sum_list l <= INR (length l) * m.
Proof.
  induction l as [|x l IH]; intros H.
  - simpl. lra.
  - cbn [length sum_list fold_right]. rewrite S_INR.
    assert (x <= m) by (apply H; now left).
    assert (sum_list l <= INR (length l) * m) by (apply IH; intros y Hy; apply H; now right).
    unfold sum_list in *. lra.
Qed.

Lemma np_mean_upper (l : list R) (m : R) :
  l <> [] -> (forall x : R, In x l -> x <= m) ->
  exists a : R, np_mean l = Some a /\ a <= m.
Proof.
  intros Hne H. rewrite np_mean_some by assumption. eexists. split; [reflexivity|].
  assert (Hn : 0 < INR (length l)).
  { apply lt_0_INR. destruct l; [congruence|simpl; lia]. }
  replace m with (INR (length l) * m / INR (length l)) by (field; lra).
  apply div_le_div; [exact Hn|]. now apply sum_list_upper.
Qed.

Lemma sum_squares_in_box (lo hi : R) (a b : vec) :
  length a = length b ->
  Forall (fun x => lo <= x <= hi) a -> Forall (fun x => lo <= x <= hi) b ->
  sum_list (map (fun x => x * x) (vsub a b))
  <= INR (length a) * ((hi - lo) * (hi - lo)).
Proof.
  intros Hl Ha. revert b Hl.
  induction Ha as [|x a Hx _ IH]; intros [|y b] Hl Hb; try discriminate.
  - simpl. lra.
  - inversion Hb as [|? ? Hy Hb']; subst.
    cbn [vsub map2 map sum_list fold_right length]. rewrite S_INR.
    assert (Hrec : sum_list (map (fun x => x * x) (vsub a b))
                   <= INR (length a) * ((hi - lo) * (hi - lo)))
      by (apply IH; [simpl in Hl; lia|exact Hb']).
    unfold sum_list, vsub in *. nra.
Qed.

(** Two points of the box are at most its diagonal apart. *)
Lemma distance_in_box (cfg : Config) (a b : vec) :
  X_MIN cfg <= X_MAX cfg ->
  length a = NUM_DIMENSIONS cfg -> length b = NUM_DIMENSIONS cfg ->
  in_bounds cfg a -> in_bounds cfg b ->
  np_linalg_norm (vsub a b)
  <= sqrt (INR (NUM_DIMENSIONS cfg)) * (X_MAX cfg - X_MIN cfg).
Proof.
  intros Hb Hla Hlb Ha Hbb. unfold np_linalg_norm.
  rewrite <- (sqrt_square (X_MAX cfg - X_MIN cfg)) by lra.
  rewrite <- sqrt_mult; [|apply pos_INR|nra].
  apply sqrt_le_1; [apply sum_squares_nonneg| |].
  - apply Rmult_le_pos; [apply pos_INR|nra].
  - rewrite <- Hla. apply sum_squares_in_box; [congruence|assumption|assumption].
Qed.

Lemma in_pairs_from (l : list vec) (x : R) :
  In x (pairs_from l) ->
  exists a b : vec, In a l /\ In b l /\ x = np_linalg_norm (vsub a b).
Proof.
  induction l as [|a l IH]; [intros []|].
  cbn [pairs_from]. intros H. apply in_app_or in H as [H|H].
  - apply in_map_iff in H as (b & <- & Hb). exists a, b.
    split; [now left|]. split; [now right|reflexivity].
  - destruct (IH H) as (a' & b & Ha & Hb & E). exists a', b.
    split; [now right|]. split; [now right|exact E].
Qed.

(** The diversity of at least two particles inside the box is a number
    between zero and the diagonal of the box. *)
Lemma diversity_in_box (cfg : Config) (objective : vec -> R) (sw : list Particle) :
  X_MIN cfg <= X_MAX cfg -> (2 <= NUM_PARTICLES cfg)%nat ->
  length sw = NUM_PARTICLES cfg ->
  (forall p : Particle, In p sw -> in_box cfg objective p) ->
  exists v : R, diversity cfg sw = Some v /\
    0 <= v <= sqrt (INR (NUM_DIMENSIONS cfg)) * (X_MAX cfg - X_MIN cfg).
Proof.
  intros Hb HN Hlen Hbox. unfold diversity.
  rewrite pair_distances_pairs_from by now rewrite length_map.
  assert (Hne : pairs_from (map position sw) <> []).
  { intros E. pose proof (length_pairs_from (map position sw)) as Hc.
    rewrite E, length_map, Hlen in Hc. simpl in Hc. nia. }
  destruct (np_mean_upper (pairs_from (map position sw))
              (sqrt (INR (NUM_DIMENSIONS cfg)) * (X_MAX cfg - X_MIN cfg)) Hne)
    as (v & Ev & Hv).
  { intros x Hx. apply in_pairs_from in Hx as (a & b & Ha & Hb' & ->).
    apply in_map_iff in Ha as (p & <- & Hp). apply in_map_iff in Hb' as (q & <- & Hq).
    destruct (Hbox p Hp) as ((Hlp & _) & Hip & _).
    destruct (Hbox q Hq) as ((Hlq & _) & Hiq & _).
    now apply distance_in_box. }
  destruct (np_mean_lower (pairs_from (map position sw)) 0 Hne) as (v' & Ev' & Hv').
  { intros x Hx. pose proof (pairs_from_nonneg (map position sw)) as Hnn.
    rewrite Forall_forall in Hnn. now apply Hnn. }
  exists v. split; [exact Ev|]. split; [|exact Hv]. congruence.
Qed.

(** X7: in a run with at least two particles, bounds in order and unit
    draws in [0,1), every recorded diversity is a number between zero and
    [sqrt(NUM_DIMENSIONS) * (X_MAX - X_MIN)], the diagonal of the search
    box. *)
Theorem diversity_history_bounds (cfg : Config) (objective : vec -> R)
    (init_draws : nat -> nat -> R) (st : State) :
  X_MIN cfg <= X_MAX cfg -> (2 <= NUM_PARTICLES cfg)%nat ->
  (forall k i : nat, 0 <= init_draws k i < 1) ->
  reachable cfg objective init_draws st ->
  length (diversity_history st) = length (best_values_history st) /\
  forall o : option R, In o (diversity_history st) ->
    exists v : R, o = Some v /\
      0 <= v <= sqrt (INR (NUM_DIMENSIONS cfg)) * (X_MAX cfg - X_MIN cfg).
Proof.
  intros Hb HN Hu Hr. split; [apply (reachable_histories _ _ _ _ Hr)|].
  induction Hr as [st0 H|st st1 d Hr IH H|st _ IH|st _ IH].
  - destruct (initial_state_spec _ _ _ _ H) as (_ & _ & _ & -> & _). intros o [].
  - destruct (iteration_body_bookkeeping _ _ _ _ _ H) as (_ & _ & _ & Ed & _).
    assert (Hr1 : reachable cfg objective init_draws st1)
      by (eapply reach_body; eassumption).
    rewrite Ed. intros o Ho. apply in_app_or in Ho as [Ho|[<-|[]]]; [now apply IH|].
    apply (diversity_in_box cfg objective); try assumption.
    + now apply (reachable_swarm_length cfg objective init_draws).
    + apply (reachable_in_box cfg objective init_draws st1 Hb Hu Hr1).
  - exact IH.
  - exact IH.
Qed.

Lemma leader_init_draws_unit (k i : nat) : 0 <= leader_init_draws k i < 1.
Proof.
  destruct k as [|k]; simpl; [|lra].
  destruct i as [|[|[|[|i]]]]; lra.
Qed.

(** At the end of the run of the script above. *)
Lemma diversity_history_bounds_witness :
  X_MIN script_config <= X_MAX script_config /\
  (2 <= NUM_PARTICLES script_config)%nat /\
  (forall k i : nat, 0 <= leader_init_draws k i < 1) /\
  exists st : State,
    reachable script_config michalewicz leader_init_draws st /\
    forall o : option R, In o (diversity_history st) ->
      exists v : R, o = Some v /\ 0 <= v <= sqrt 5 * PI.
Proof.
  assert (Hb : X_MIN script_config <= X_MAX script_config).
  { simpl. pose proof PI_RGT_0. lra. }
  assert (HN : (2 <= NUM_PARTICLES script_config)%nat) by (simpl; lia).
  split; [exact Hb|]. split; [exact HN|]. split; [exact leader_init_draws_unit|].
  destruct (pso_loop_reachable script_config michalewicz leader_init_draws
              (fun _ => quarter_step_draws)) as (st & _ & Hr); [simpl; lia|].
  exists st. split; [exact Hr|].
  destruct (diversity_history_bounds script_config michalewicz leader_init_draws st
              Hb HN leader_init_draws_unit Hr) as (_ & H).
  intros o Ho. destruct (H o Ho) as (v & Ev & Hv). exists v. split; [exact Ev|].
  simpl in Hv. replace (sqrt 5 * PI) with (sqrt (1 + 1 + 1 + 1 + 1) * (PI - 0)).
  - exact Hv.
  - f_equal; [f_equal|]; lra.
Defined.

(** ** The order of the swarm does not matter for the diversity *)

Lemma squares_vsub_sym (a b : vec) :
  map (fun x => x * x) (vsub a b) = map (fun x => x * x) (vsub b a).
Proof.
  revert b; induction a as [|x a IH]; intros [|y b]; simpl; try reflexivity.
  f_equal; [ring|apply IH].
Qed.

Lemma distance_sym (a b : vec) :
  np_linalg_norm (vsub a b) = np_linalg_norm (vsub b a).
Proof. unfold np_linalg_norm. now rewrite squares_vsub_sym. Qed.

Lemma sum_list_app (l1 l2 : list R) :
  sum_list (l1 ++ l2) = sum_list l1 + sum_list l2.
Proof.
  induction l1 as [|x l1 IH]; simpl; [lra|]. unfold sum_list in *. rewrite IH. lra.
Qed.

Lemma sum_list_cons (x : R) (l : list R) : sum_list (x :: l) = x + sum_list l.
Proof. reflexivity. Qed.

Lemma sum_list_permutation (l1 l2 : list R) :
  Permutation l1 l2 -> sum_list l1 = sum_list l2.
Proof.
  induction 1 as [|x l1 l2 _ IH|x y l|l1 l2 l3 _ IH1 _ IH2]; simpl;
    unfold sum_list in *; lra.
Qed.

Lemma sum_pairs_from_permutation (l1 l2 : list vec) :
  Permutation l1 l2 -> sum_list (pairs_from l1) = sum_list (pairs_from l2).
Proof.
  induction 1 as [|x l1 l2 Hp IH|x y l|l1 l2 l3 _ IH1 _ IH2].
  - reflexivity.
  - cbn [pairs_from]. rewrite !sum_list_app, IH. f_equal.
    apply sum_list_permutation. now apply Permutation_map.
  - cbn [pairs_from map]. rewrite !sum_list_app, !sum_list_cons.
    rewrite (distance_sym y x). lra.
  - congruence.
Qed.

(** X8: the diversity does not depend on the order of the particles: two
    swarms of [NUM_PARTICLES] particles that are permutations of one another
    have the same diversity. *)
Theorem diversity_permutation (cfg : Config) (sw sw' : list Particle) :
  length sw = NUM_PARTICLES cfg -> Permutation sw sw' ->
  diversity cfg sw = diversity cfg sw'.
Proof.
  intros Hlen Hperm.
  assert (Hlen' : length sw' = NUM_PARTICLES cfg)
    by (rewrite <- Hlen; symmetry; now apply Permutation_length).
  unfold diversity.
  rewrite !pair_distances_pairs_from by now rewrite length_map.
  assert (Hsum : sum_list (pairs_from (map position sw))
                 = sum_list (pairs_from (map position sw')))
    by now apply sum_pairs_from_permutation, Permutation_map.
  assert (Hl : length (pairs_from (map position sw))
               = length (pairs_from (map position sw'))).
  { pose proof (length_pairs_from (map position sw)) as H1.
    pose proof (length_pairs_from (map position sw')) as H2.
    rewrite length_map, Hlen in H1. rewrite length_map, Hlen' in H2. lia. }
  destruct (pairs_from (map position sw)) as [|x l] eqn:E1;
    destruct (pairs_from (map position sw')) as [|x' l'] eqn:E2;
    try discriminate; [reflexivity|].
  unfold np_mean. now rewrite Hsum, Hl.
Qed.

(** The initial swarm of the run above, visited backwards. *)
Lemma diversity_permutation_witness :
  length (swarm leader_state) = NUM_PARTICLES script_config /\
  Permutation (swarm leader_state) (rev (swarm leader_state)) /\
  diversity script_config (swarm leader_state)
  = diversity script_config (rev (swarm leader_state)).
Proof.
  assert (Hlen : length (swarm leader_state) = NUM_PARTICLES script_config)
    by reflexivity.
  assert (Hperm : Permutation (swarm leader_state) (rev (swarm leader_state)))
    by apply Permutation_rev.
  split; [exact Hlen|]. split; [exact Hperm|].
  exact (diversity_permutation script_config _ _ Hlen Hperm).
Defined.

(** ** The convergence analysis *)

Lemma fitness_diffs_consecutive (h : list R) : fitness_diffs h = consecutive_diffs h.
Proof.
  unfold fitness_diffs. induction h as [|a l IH]; [reflexivity|].
  destruct l as [|b l]; [reflexivity|].
  change (length (a :: b :: l) - 1)%nat with (S (length l)).
  change (length (b :: l) - 1)%nat with (length l - 0)%nat in IH.
  rewrite Nat.sub_0_r in IH.
  change (consecutive_diffs (a :: b :: l))
    with (Rabs (b - a) :: consecutive_diffs (b :: l)).
  rewrite <- IH. cbn [seq map]. f_equal.
  rewrite <- seq_shift, map_map. apply map_ext. intros i. reflexivity.
Qed.

Lemma nonincreasing_tail (a : R) (l : list R) :
  nonincreasing (a :: l) -> nonincreasing l.
Proof.
  intros H i Hi. apply (H (S i)). simpl. lia.
Qed.

(** The changes of a non-increasing list are its drops, and they add up to
    the drop from the first to the last entry. *)
Lemma consecutive_diffs_telescope (a : R) (l : list R) :
  nonincreasing (a :: l) ->
  Forall (fun x => 0 <= x) (consecutive_diffs (a :: l)) /\
  sum_list (consecutive_diffs (a :: l)) = a - last (a :: l) 0.
Proof.
  revert a; induction l as [|b l IH]; intros a H.
  - simpl. split; [constructor|lra].
  - destruct (IH b (nonincreasing_tail _ _ H)) as (Hnn & Hsum).
    assert (Hba : b <= a) by (apply (H 0%nat); simpl; lia).
    change (consecutive_diffs (a :: b :: l))
      with (Rabs (b - a) :: consecutive_diffs (b :: l)).
    rewrite sum_list_cons, Hsum.
    change (last (a :: b :: l) 0) with (last (b :: l) 0).
    rewrite Rabs_left1 by lra. split; [|lra].
    constructor; [lra|exact Hnn].
Qed.

Lemma length_fitness_diffs (h : list R) :
  length (fitness_diffs h) = (length h - 1)%nat.
Proof. unfold fitness_diffs. now rewrite length_map, length_seq. Qed.

(** X9: for the recorded global bests [h] of a run, the list of changes
    [fitness_diffs h] has one entry less than [h]; its entry [i] is the drop
    [h[i] - h[i+1]], which is not negative; and when [h] is not empty the
    changes add up to the first recorded global best minus the current
    one. *)
Theorem fitness_diffs_total (cfg : Config) (objective : vec -> R)
    (init_draws : nat -> nat -> R) (st : State) :
  reachable cfg objective init_draws st ->
  let h := best_values_history st in
  length (fitness_diffs h) = (length h - 1)%nat /\
  (forall i : nat, (S i < length h)%nat ->
     nth i (fitness_diffs h) 0 = nth i h 0 - nth (S i) h 0 /\
     0 <= nth i (fitness_diffs h) 0) /\
  (h <> [] -> sum_list (fitness_diffs h) = nth 0 h 0 - global_best_value st).
Proof.
  intros Hr h.
  destruct (reachable_history _ _ _ _ Hr) as (Hnon & _). fold h in Hnon.
  split; [apply length_fitness_diffs|]. split.
  - intros i Hi.
    assert (E : nth i (fitness_diffs h) 0 = Rabs (nth (i + 1) h 0 - nth i h 0)).
    { unfold fitness_diffs.
      rewrite (nth_indep _ 0 ((fun i => Rabs (nth (i + 1) h 0 - nth i h 0)) 0%nat))
        by (rewrite length_map, length_seq; lia).
      rewrite (map_nth (fun i => Rabs (nth (i + 1) h 0 - nth i h 0))).
      rewrite seq_nth by lia. reflexivity. }
    rewrite E. replace (i + 1)%nat with (S i) by lia.
    specialize (Hnon i Hi). rewrite Rabs_left1 by lra. split; lra.
  - intros Hne.
    destruct (reachable_histories _ _ _ _ Hr) as (_ & _ & [Hh|(h0 & _ & _ & Eh & _)]);
      [contradiction|].
    fold h in Eh.
    destruct h as [|a l] eqn:Eqh; [contradiction|].
    rewrite fitness_diffs_consecutive.
    destruct (consecutive_diffs_telescope a l Hnon) as (_ & ->).
    rewrite Eh, last_last. destruct h0; simpl in Eh; injection Eh as -> _; reflexivity.
Qed.

(** At the end of the run of the script above. *)
Lemma fitness_diffs_total_witness :
  exists st : State,
    reachable script_config michalewicz leader_init_draws st /\
    length (fitness_diffs (best_values_history st))
    = (length (best_values_history st) - 1)%nat.
Proof.
  destruct (pso_loop_reachable script_config michalewicz leader_init_draws
              (fun _ => quarter_step_draws)) as (st & _ & Hr); [simpl; lia|].
  exists st. split; [exact Hr|].
  apply (fitness_diffs_total script_config michalewicz leader_init_draws st Hr).
Defined.

(** ** Which particle becomes the global best *)

(** [min] returns the first of the elements with the least key: every element
    before it has a strictly greater key, every element after it a key that
    is not smaller. *)
Lemma min_from_first_minimum {A : Type} (key : A -> R) (l : list A) (best : A) :
  exists l1 l2 : list A,
    best :: l = l1 ++ min_from key best l :: l2 /\
    (forall x : A, In x l1 -> key (min_from key best l) < key x) /\
    (forall x : A, In x l2 -> key (min_from key best l) <= key x).
Proof.
  revert best; induction l as [|x l IH]; intros best.
  - exists [], []. simpl. split; [reflexivity|]. split; intros y [].
  - simpl. destruct (Rlt_dec (key x) (key best)) as [Hlt|Hge].
    + destruct (IH x) as (l1 & l2 & E & H1 & H2).
      exists (best :: l1), l2. split; [cbn [app]; f_equal; exact E|]. split; [|exact H2].
      intros y [<-|Hy]; [|now apply H1].
      destruct (min_from_spec key l x) as (_ & Hle).
      specialize (Hle x (or_introl eq_refl)). lra.
    + destruct (IH best) as (l1 & l2 & E & H1 & H2).
      destruct l1 as [|b l1].
      * simpl in E. injection E as E1 E2.
        exists [], (x :: l2). rewrite <- E1. split; [cbn [app]; now rewrite <- E2|].
        split; [intros y []|].
        intros y [<-|Hy]; [lra|]. rewrite E1. now apply H2.
      * simpl in E. injection E as <- E2.
        exists (best :: x :: l1), l2. split; [cbn [app]; now rewrite <- E2|].
        split; [|exact H2].
        assert (Hb : key (min_from key best l) < key best) by (apply H1; now left).
        intros y [<-|[<-|Hy]]; [exact Hb|lra|]. apply H1. now right.
Qed.

(** X10: the first global best of a run is the record of the first
    particle, in the order of the swarm, among those with the least
    [best_value]: every particle before it has a strictly greater
    [best_value], every particle after it one that is not smaller. *)
Theorem initial_global_best_first_minimum (cfg : Config) (objective : vec -> R)
    (init_draws : nat -> nat -> R) (st0 : State) :
  initial_state cfg objective init_draws = Ok st0 ->
  exists (l1 l2 : list Particle) (m : Particle),
    swarm st0 = l1 ++ m :: l2 /\
    global_best_position st0 = best_position m /\
    global_best_value st0 = best_value m /\
    (forall p : Particle, In p l1 -> best_value m < best_value p) /\
    (forall p : Particle, In p l2 -> best_value m <= best_value p).
Proof.
  unfold initial_state.
  destruct (initial_swarm cfg objective init_draws) as [|p sw] eqn:Esw;
    [discriminate|].
  simpl. intros H. injection H as <-. simpl.
  destruct (min_from_first_minimum best_value sw p) as (l1 & l2 & E & H1 & H2).
  exists l1, l2, (min_from best_value p sw). auto.
Qed.

(** The run of the script above starts from its first particle. *)
Lemma initial_global_best_first_minimum_witness :
  initial_state script_config michalewicz leader_init_draws = Ok leader_state /\
  exists (l1 l2 : list Particle) (m : Particle),
    swarm leader_state = l1 ++ m :: l2 /\
    global_best_value leader_state = best_value m /\
    (forall p : Particle, In p l1 -> best_value m < best_value p).
Proof.
  split; [exact leader_initial_state|].
  destruct (initial_global_best_first_minimum script_config michalewicz
              leader_init_draws leader_state leader_initial_state)
    as (l1 & l2 & m & E & _ & Ev & H1 & _).
  exists l1, l2, m. auto.
Defined.

(** X11: the recomputation at the end of an iteration either finds no
    particle strictly better than the global best, and then leaves both
    [global_best_position] and [global_best_value] as they were (a tie does
    not move the position); or it takes the record of the first particle
    among those with the least [best_value], which is strictly below the
    old global best. *)
Theorem global_best_update_rule (cfg : Config) (objective : vec -> R)
    (d : step_draws) (st st1 : State) :
  iteration_body cfg objective d st = Ok st1 ->
  ((forall q : Particle, In q (swarm st1) -> global_best_value st <= best_value q) /\
   global_best_value st1 = global_best_value st /\
   global_best_position st1 = global_best_position st) \/
  (exists (l1 l2 : list Particle) (m : Particle),
     swarm st1 = l1 ++ m :: l2 /\
     best_value m < global_best_value st /\
     global_best_value st1 = best_value m /\
     global_best_position st1 = best_position m /\
     (forall p : Particle, In p l1 -> best_value m < best_value p) /\
     (forall p : Particle, In p l2 -> best_value m <= best_value p)).
Proof.
  unfold iteration_body, recompute_global_best.
  destruct (mid_step cfg objective d st) as [|p sw] eqn:Emid; [discriminate|].
  cbn [py_min].
  destruct (min_from_first_minimum best_value sw p) as (l1 & l2 & E & H1 & H2).
  destruct (min_from_spec best_value sw p) as (_ & Hle).
  destruct Rlt_dec as [Hlt|Hge]; intros H; injection H as <-; simpl.
  - right. exists l1, l2, (min_from best_value p sw).
    repeat split; assumption.
  - left. split; [|split; reflexivity]. intros q Hq. specialize (Hle q Hq). lra.
Qed.

(** The first iteration of the run of the script above. *)
Lemma global_best_update_rule_witness :
  exists st1 : State,
    iteration_body script_config michalewicz quarter_step_draws leader_state
    = Ok st1 /\
    (global_best_value st1 = global_best_value leader_state \/
     global_best_value st1 < global_best_value leader_state).
Proof.
  destruct (iteration_body_spec script_config michalewicz quarter_step_draws
              leader_state) as (st1 & E & _).
  { apply (reachable_synchronized script_config michalewicz leader_init_draws).
    apply reach_init. exact leader_initial_state. }
  exists st1. split; [exact E|].
  destruct (global_best_update_rule script_config michalewicz quarter_step_draws
              leader_state st1 E)
    as [(_ & Ev & _)|(l1 & l2 & m & _ & Hlt & Ev & _)].
  - left. exact Ev.
  - right. rewrite Ev. exact Hlt.
Defined.

(** ** A swarm of one particle *)

Lemma vsub_self (a : vec) : vsub a a = np_zeros (length a).
Proof.
  unfold vsub, np_zeros. induction a as [|x a IH]; simpl; [reflexivity|].
  rewrite IH. f_equal. ring.
Qed.

Lemma vmul_zeros_r (n : nat) (v : vec) :
  vmul v (np_zeros n) = np_zeros (Nat.min (length v) n).
Proof.
  unfold vmul, np_zeros. revert n; induction v as [|x v IH]; intros [|n]; simpl;
    try reflexivity.
  rewrite IH. f_equal. ring.
Qed.

Lemma vscale_zeros (c : R) (n : nat) : vscale c (np_zeros n) = np_zeros n.
Proof.
  unfold vscale, np_zeros. induction n as [|n IH]; simpl; [reflexivity|].
  rewrite IH. f_equal. ring.
Qed.

Lemma particle_eq (p q : Particle) :
  position p = position q -> velocity p = velocity q ->
  best_position p = best_position q -> best_value p = best_value q -> p = q.
Proof. destruct p, q. simpl. congruence. Qed.

(** A particle at rest at its own best position, which is also the global
    best position, gets the zero velocity again, whatever the draws. *)
Lemma velocity_at_global_best (cfg : Config) (p : Particle) (u1 u2 : nat -> R) :
  well_shaped cfg p ->
  velocity p = np_zeros (NUM_DIMENSIONS cfg) ->
  best_position p = position p ->
  velocity (update_velocity cfg p (position p) u1 u2)
  = np_zeros (NUM_DIMENSIONS cfg).
Proof.
  intros (Hp & _ & _) Hv Hbp. unfold update_velocity; cbn [velocity].
  rewrite Hv, Hbp, vscale_zeros, vsub_self, !vmul_zeros_r, !length_vscale,
    !length_np_uniform, Hp, Nat.min_id.
  rewrite (vadd_zeros_r _ (np_zeros (NUM_DIMENSIONS cfg)))
    by apply length_np_zeros.
  apply vadd_zeros_r, length_np_zeros.
Qed.

Lemma update_particle_at_global_best (cfg : Config) (objective : vec -> R)
    (p : Particle) (d : (nat -> R) * (nat -> R)) :
  well_shaped cfg p ->
  velocity p = np_zeros (NUM_DIMENSIONS cfg) ->
  best_position p = position p ->
  in_bounds cfg (position p) ->
  best_value p = objective (position p) ->
  update_particle cfg objective (position p) d p = p.
Proof.
  intros Hws Hv Hbp Hin Hbv.
  pose proof (velocity_at_global_best cfg p (fst d) (snd d) Hws Hv Hbp) as Evel.
  unfold update_particle.
  set (q := update_velocity cfg p (position p) (fst d) (snd d)) in *.
  assert (Epos : position (update_position cfg objective q) = position p).
  { rewrite position_update_position, Evel. unfold q; cbn [update_velocity position].
    rewrite vadd_zeros_r by apply Hws. now apply np_clip_in_bounds. }
  pose proof (velocity_update_position cfg objective q) as Evel'.
  destruct (best_update_position cfg objective q) as [(H & _)|(_ & E1 & E2)].
  - rewrite Epos in H. unfold q in H. simpl in H. lra.
  - apply particle_eq.
    + exact Epos.
    + now rewrite Evel', Evel.
    + exact E1.
    + exact E2.
Qed.

(** X12: a swarm of one particle never moves: with [NUM_PARTICLES = 1],
    bounds in order and unit draws in [0,1), every state of the run has the
    initial swarm, whose only particle sits at the global best position with
    zero velocity, and the global best stays the objective at the sampled
    position. *)
Theorem single_particle_never_moves (cfg : Config) (objective : vec -> R)
    (init_draws : nat -> nat -> R) (st : State) :
  NUM_PARTICLES cfg = 1%nat ->
  X_MIN cfg <= X_MAX cfg ->
  (forall k i : nat, 0 <= init_draws k i < 1) ->
  reachable cfg objective init_draws st ->
  let p0 := Particle_init cfg objective (init_draws 0%nat) in
  swarm st = [p0] /\
  global_best_position st = position p0 /\
  global_best_value st = objective (position p0).
Proof.
  intros HN Hb Hu Hr p0.
  assert (Hsw0 : initial_swarm cfg objective init_draws = [p0]).
  { unfold initial_swarm. rewrite HN. reflexivity. }
  induction Hr as [st0 H|st st1 d Hr IH H|st _ IH|st _ IH].
  - unfold initial_state in H. rewrite Hsw0 in H. simpl in H.
    injection H as <-. simpl. auto.
  - destruct IH as (IH1 & IH2 & IH3).
    assert (Emid : mid_step cfg objective d st = [p0]).
    { unfold mid_step. rewrite IH1, IH2. cbn [for_particles]. f_equal.
      apply update_particle_at_global_best.
      - apply well_shaped_init.
      - reflexivity.
      - reflexivity.
      - now apply in_bounds_np_uniform.
      - reflexivity. }
    unfold iteration_body, recompute_global_best in H. rewrite Emid in H.
    cbn [py_min min_from] in H. rewrite IH3 in H.
    destruct Rlt_dec as [Hlt|_] in H.
    + simpl in Hlt. lra.
    + injection H as <-. simpl. auto.
  - exact IH.
  - exact IH.
Qed.

(** The run of the script with one particle. *)
Lemma single_particle_never_moves_witness :
  NUM_PARTICLES single_particle_config = 1%nat /\
  X_MIN single_particle_config <= X_MAX single_particle_config /\
  (forall k i : nat, 0 <= leader_init_draws k i < 1) /\
  exists st : State,
    pso_loop single_particle_config michalewicz leader_init_draws
      (fun _ => quarter_step_draws) = Ok st /\
    swarm st = [Particle_init single_particle_config michalewicz
                  (leader_init_draws 0%nat)].
Proof.
  assert (Hb : X_MIN single_particle_config <= X_MAX single_particle_config).
  { simpl. pose proof PI_RGT_0. lra. }
  split; [reflexivity|]. split; [exact Hb|]. split; [exact leader_init_draws_unit|].
  destruct (pso_loop_reachable single_particle_config michalewicz leader_init_draws
              (fun _ => quarter_step_draws)) as (st & E & Hr); [simpl; lia|].
  exists st. split; [exact E|].
  apply (single_particle_never_moves single_particle_config michalewicz
           leader_init_draws st eq_refl Hb leader_init_draws_unit Hr).
Defined.

(** ** The tolerance *)

(** X13: with a negative [TOLERANCE] the stop criterion never fires: the
    loop is left only when [iterations] reaches [MAX_ITERATIONS], after one
    record per iteration, and the run then reports [MAX_ITERATIONS + 1]
    iterations. *)
Theorem negative_tolerance_exhausts (cfg : Config) (objective : vec -> R)
    (init_draws : nat -> nat -> R) (draws : nat -> step_draws) (st : State) :
  TOLERANCE cfg < 0 ->
  pso_loop cfg objective init_draws draws = Ok st ->
  global_min_found st = false /\
  iterations st = MAX_ITERATIONS cfg /\
  length (best_values_history st) = MAX_ITERATIONS cfg /\
  forall r : Results, pso cfg objective init_draws draws = Ok r ->
    res_iterations r = S (MAX_ITERATIONS cfg).
Proof.
  intros Htol E.
  destruct (pso_loop_trace _ _ _ _ _ E) as [(_ & Hw & _)|(Hf & Hit & Hlen & _)].
  - exfalso. unfold within_tolerance in Hw.
    pose proof (Rabs_pos (global_best_value st - GLOBAL_MINIMUM cfg)). lra.
  - split; [exact Hf|]. split; [exact Hit|]. split; [exact Hlen|].
    intros r Hr. unfold pso in Hr. rewrite E in Hr. unfold build_results in Hr.
    destruct (py_last (avg_values_history st)); [|discriminate].
    destruct (py_last (diversity_history st)); [|discriminate].
    injection Hr as <-. simpl. rewrite Hit. lia.
Qed.

(** The run of the script with a negative tolerance. *)
Lemma negative_tolerance_exhausts_witness :
  TOLERANCE negative_tolerance_config < 0 /\
  exists st : State,
    pso_loop negative_tolerance_config michalewicz leader_init_draws
      (fun _ => quarter_step_draws) = Ok st /\
    iterations st = 1000%nat.
Proof.
  assert (Htol : TOLERANCE negative_tolerance_config < 0) by (simpl; lra).
  split; [exact Htol|].
  destruct (pso_loop_reachable negative_tolerance_config michalewicz
              leader_init_draws (fun _ => quarter_step_draws)) as (st & E & _);
    [simpl; lia|].
  exists st. split; [exact E|].
  apply (negative_tolerance_exhausts negative_tolerance_config michalewicz
           leader_init_draws (fun _ => quarter_step_draws) st Htol E).
Defined.

(** With the Michalewicz objective on [0, pi] every recorded global best is
    between minus the dimension and zero. *)
Lemma reachable_history_in_range (cfg : Config) (init_draws : nat -> nat -> R)
    (st : State) :
  X_MIN cfg = 0 -> X_MAX cfg = PI ->
  (forall k i : nat, 0 <= init_draws k i < 1) ->
  reachable cfg michalewicz init_draws st ->
  forall x : R, In x (best_values_history st) ->
    - INR (NUM_DIMENSIONS cfg) <= x <= 0.
Proof.
  intros Hlo Hhi Hu.
  assert (Hb : X_MIN cfg <= X_MAX cfg).
  { rewrite Hlo, Hhi. pose proof PI_RGT_0. lra. }
  induction 1 as [st0 H|st st1 d Hr IH H|st _ IH|st _ IH].
  - destruct (initial_state_spec _ _ _ _ H) as (_ & -> & _). intros x [].
  - destruct (iteration_body_bookkeeping _ _ _ _ _ H) as (_ & Eh & _).
    assert (Hr1 : reachable cfg michalewicz init_draws st1)
      by (eapply reach_body; eassumption).
    rewrite Eh. intros x Hx. apply in_app_or in Hx as [Hx|[<-|[]]]; [now apply IH|].
    destruct (reachable_synchronized _ _ _ _ Hr1) as (_ & _ & m & Hm & <-).
    apply in_box_best_value; try assumption.
    now apply (reachable_in_box cfg michalewicz init_draws st1 Hb Hu Hr1).
  - exact IH.
  - exact IH.
Qed.

Lemma wide_tolerance_covers (cfg : Config) (x : R) :
  INR (NUM_DIMENSIONS cfg) + Rabs (GLOBAL_MINIMUM cfg) <= TOLERANCE cfg ->
  - INR (NUM_DIMENSIONS cfg) <= x <= 0 ->
  within_tolerance cfg x.
Proof.
  intros Htol Hx. unfold within_tolerance.
  assert (H1 : Rabs (x - GLOBAL_MINIMUM cfg) <= Rabs x + Rabs (GLOBAL_MINIMUM cfg)).
  { unfold Rminus. rewrite <- (Rabs_Ropp (GLOBAL_MINIMUM cfg)). apply Rabs_triang. }
  assert (H2 : Rabs x <= INR (NUM_DIMENSIONS cfg)).
  { rewrite Rabs_left1 by lra. lra. }
  lra.
Qed.

(** X14: with the Michalewicz objective on [0, pi], at least one particle
    and one iteration, and a tolerance of at least
    [NUM_DIMENSIONS + |GLOBAL_MINIMUM|], the run stops after exactly one
    iteration: one record, [iterations = 0], and a results row that reports
    one iteration. *)
Theorem wide_tolerance_stops_at_once (cfg : Config)
    (init_draws : nat -> nat -> R) (draws : nat -> step_draws) :
  X_MIN cfg = 0 -> X_MAX cfg = PI ->
  (forall k i : nat, 0 <= init_draws k i < 1) ->
  INR (NUM_DIMENSIONS cfg) + Rabs (GLOBAL_MINIMUM cfg) <= TOLERANCE cfg ->
  (0 < NUM_PARTICLES cfg)%nat -> (0 < MAX_ITERATIONS cfg)%nat ->
  exists (st : State) (r : Results),
    pso_loop cfg michalewicz init_draws draws = Ok st /\
    global_min_found st = true /\
    iterations st = 0%nat /\
    best_values_history st = [global_best_value st] /\
    pso cfg michalewicz init_draws draws = Ok r /\
    res_iterations r = 1%nat /\
    res_best_value r = global_best_value st.
Proof.
  intros Hlo Hhi Hu Htol HN HM.
  destruct (pso_loop_reachable cfg michalewicz init_draws draws HN) as (st & E & Hr).
  pose proof (reachable_history_in_range cfg init_draws st Hlo Hhi Hu Hr) as Hrange.
  assert (Hall : forall x : R, In x (best_values_history st) -> within_tolerance cfg x).
  { intros x Hx. apply wide_tolerance_covers; [exact Htol|now apply Hrange]. }
  destruct (pso_succeeds cfg michalewicz init_draws draws HN HM) as (r & Er).
  destruct (pso_loop_trace _ _ _ _ _ E)
    as [(Hf & _ & _ & h0 & Eh & Hl0 & Hno)|(_ & _ & Hlen & Hno)].
  - assert (Hnil : h0 = []).
    { destruct h0 as [|x h0]; [reflexivity|]. exfalso.
      apply (Hno x); [now left|]. apply Hall. rewrite Eh. now left. }
    subst h0. simpl in Hl0, Eh.
    exists st, r. repeat split; auto.
    + unfold pso in Er. rewrite E in Er. unfold build_results in Er.
      destruct (py_last (avg_values_history st)); [|discriminate].
      destruct (py_last (diversity_history st)); [|discriminate].
      injection Er as <-. simpl. lia.
    + unfold pso in Er. rewrite E in Er. unfold build_results in Er.
      destruct (py_last (avg_values_history st)); [|discriminate].
      destruct (py_last (diversity_history st)); [|discriminate].
      injection Er as <-. reflexivity.
  - exfalso. destruct (best_values_history st) as [|x h] eqn:Eh.
    + simpl in Hlen. lia.
    + apply (Hno x); [now left|]. apply Hall. now left.
Qed.

(** The run of the script with a tolerance of ten. *)
Lemma wide_tolerance_stops_at_once_witness :
  X_MIN wide_tolerance_config = 0 /\ X_MAX wide_tolerance_config = PI /\
  (forall k i : nat, 0 <= leader_init_draws k i < 1) /\
  INR (NUM_DIMENSIONS wide_tolerance_config)
    + Rabs (GLOBAL_MINIMUM wide_tolerance_config)
  <= TOLERANCE wide_tolerance_config /\
  (0 < NUM_PARTICLES wide_tolerance_config)%nat /\
  (0 < MAX_ITERATIONS wide_tolerance_config)%nat /\
  exists r : Results,
    pso wide_tolerance_config michalewicz leader_init_draws
      (fun _ => quarter_step_draws) = Ok r /\
    res_iterations r = 1%nat.
Proof.
  assert (Htol : INR (NUM_DIMENSIONS wide_tolerance_config)
                 + Rabs (GLOBAL_MINIMUM wide_tolerance_config)
                 <= TOLERANCE wide_tolerance_config).
  { simpl. rewrite Rabs_Ropp, Rabs_right by lra. lra. }
  assert (HN : (0 < NUM_PARTICLES wide_tolerance_config)%nat) by (simpl; lia).
  assert (HM : (0 < MAX_ITERATIONS wide_tolerance_config)%nat) by (simpl; lia).
  split; [reflexivity|]. split; [reflexivity|].
  split; [exact leader_init_draws_unit|]. split; [exact Htol|].
  split; [exact HN|]. split; [exact HM|].
  destruct (wide_tolerance_stops_at_once wide_tolerance_config leader_init_draws
              (fun _ => quarter_step_draws) eq_refl eq_refl leader_init_draws_unit
              Htol HN HM) as (st & r & _ & _ & _ & _ & Er & Hr & _).
  exists r. split; [exact Er|exact Hr].
Defined.

(** ** The run number *)

Lemma py_max_spec (l : list N) (x : N) :
  (forall y : N, In y (x :: l) -> (y <= py_max x l)%N) /\ In (py_max x l) (x :: l).
Proof.
  unfold py_max. revert x; induction l as [|z l IH]; intros x; simpl.
  - split; [intros y [<-|[]]; lia|now left].
  - destruct (IH (N.max x z)) as (H1 & H2). split.
    + pose proof (H1 (N.max x z) (or_introl eq_refl)) as Hm.
      intros y [Hy|[Hy|Hy]]; [subst y; lia|subst y; lia|].
      apply H1. now right.
    + destruct H2 as [H2|H2]; [|now right; right].
      rewrite <- H2. destruct (N.max_spec x z) as [(_ & ->)|(_ & ->)]; auto.
Qed.

Lemma py_int_example :
  py_isdigit "0042"%string = true /\ py_int "0042"%string = 42%N /\
  py_isdigit ""%string = false /\ py_isdigit "4a"%string = false /\
  py_isdigit "-1"%string = false.
Proof. repeat split; reflexivity. Qed.

(** X15: the run number is 1 when there is no results file or no row whose
    run number is a digit string; otherwise it is one more than the largest
    run number among those rows.  It is always at least 1 and larger than
    every run number already in the file. *)
Theorem run_number_fresh (file : option (list String.string)) :
  (1 <= next_run_number file)%N /\
  (file = None -> next_run_number file = 1%N) /\
  forall column : list String.string, file = Some column ->
    (forall s : String.string, In s column -> py_isdigit s = true ->
       (py_int s < next_run_number file)%N) /\
    ((forall s : String.string, In s column -> py_isdigit s = false) ->
       next_run_number file = 1%N) /\
    ((exists s : String.string, In s column /\ py_isdigit s = true) ->
       exists s : String.string, In s column /\ py_isdigit s = true /\
         next_run_number file = (py_int s + 1)%N).
Proof.
  destruct file as [column|]; [|simpl; repeat split; try lia; discriminate].
  assert (Hin : forall s : String.string, In s column -> py_isdigit s = true ->
                  In (py_int s) (map py_int (filter py_isdigit column))).
  { intros s Hs Hd. apply in_map. apply filter_In. auto. }
  unfold next_run_number.
  destruct (map py_int (filter py_isdigit column)) as [|x rest] eqn:E.
  - split; [lia|]. split; [discriminate|].
    intros column' H. injection H as <-.
    split; [intros s Hs Hd; destruct (Hin s Hs Hd)|]. split; [reflexivity|].
    intros (s & Hs & Hd). destruct (Hin s Hs Hd).
  - destruct (py_max_spec rest x) as (Hmax & Hmem).
    split; [lia|]. split; [discriminate|].
    intros column' H. injection H as <-. split; [|split].
    + intros s Hs Hd. specialize (Hmax _ (Hin s Hs Hd)). lia.
    + intros Hnone. exfalso.
      assert (Hx : In x (map py_int (filter py_isdigit column)))
        by (rewrite E; now left).
      apply in_map_iff in Hx as (s & _ & Hs). apply filter_In in Hs as (Hs & Hd).
      rewrite (Hnone s Hs) in Hd. discriminate.
    + intros _. rewrite <- E in Hmem.
      apply in_map_iff in Hmem as (s & Es & Hs). apply filter_In in Hs as (Hs & Hd).
      exists s. rewrite Es. auto.
Qed.

(** ** The search box *)

(** X16: in a run with bounds in order and unit draws in [0,1), the swarm
    never leaves the search box: between iterations every particle has
    arrays of the configured dimension, its position and its best position
    lie in [X_MIN, X_MAX] in every coordinate, clamping its position again
    changes nothing, and the global best position lies in the box as
    well. *)
Theorem swarm_stays_in_box (cfg : Config) (objective : vec -> R)
    (init_draws : nat -> nat -> R) (st : State) :
  X_MIN cfg <= X_MAX cfg ->
  (forall k i : nat, 0 <= init_draws k i < 1) ->
  reachable cfg objective init_draws st ->
  (forall p : Particle, In p (swarm st) ->
     well_shaped cfg p /\
     in_bounds cfg (position p) /\
     in_bounds cfg (best_position p) /\
     np_clip (position p) (X_MIN cfg) (X_MAX cfg) = position p) /\
  length (global_best_position st) = NUM_DIMENSIONS cfg /\
  in_bounds cfg (global_best_position st).
Proof.
  intros Hb Hu Hr.
  destruct (reachable_in_box cfg objective init_draws st Hb Hu Hr) as (Hbox & Hlen).
  split; [|split; [exact Hlen|]].
  - intros p Hp. destruct (Hbox p Hp) as (Hws & Hpos & Hbest & _).
    repeat split; try assumption; try apply Hws. now apply np_clip_in_bounds.
  - destruct (reachable_global_record _ _ _ _ Hr) as (p & Hp & <- & _).
    apply (Hbox p Hp).
Qed.

(** At the end of the run of the script above. *)
Lemma swarm_stays_in_box_witness :
  X_MIN script_config <= X_MAX script_config /\
  (forall k i : nat, 0 <= leader_init_draws k i < 1) /\
  exists st : State,
    reachable script_config michalewicz leader_init_draws st /\
    in_bounds script_config (global_best_position st).
Proof.
  assert (Hb : X_MIN script_config <= X_MAX script_config).
  { simpl. pose proof PI_RGT_0. lra. }
  split; [exact Hb|]. split; [exact leader_init_draws_unit|].
  destruct (pso_loop_reachable script_config michalewicz leader_init_draws
              (fun _ => quarter_step_draws)) as (st & _ & Hr); [simpl; lia|].
  exists st. split; [exact Hr|].
  apply (swarm_stays_in_box script_config michalewicz leader_init_draws st Hb
           leader_init_draws_unit Hr).
Defined.

(** ** Bounds in the wrong order *)

Lemma clip1_reversed (lo hi x : R) : hi < lo -> clip1 lo hi x = hi.
Proof.
  intros H. unfold clip1. apply Rmin_right.
  apply Rle_trans with lo; [lra|apply Rmax_r].
Qed.

Lemma np_clip_reversed (lo hi : R) (v : vec) :
  hi < lo -> np_clip v lo hi = repeat hi (length v).
Proof.
  intros H. unfold np_clip. induction v as [|x v IH]; simpl; [reflexivity|].
  now rewrite IH, clip1_reversed.
Qed.

Lemma reachable_well_shaped (cfg : Config) (objective : vec -> R)
    (init_draws : nat -> nat -> R) (st : State) :
  reachable cfg objective init_draws st ->
  (forall p : Particle, In p (swarm st) -> well_shaped cfg p) /\
  length (global_best_position st) = NUM_DIMENSIONS cfg.
Proof.
  induction 1 as [st0 H|st st1 d Hr IH H|st _ IH|st _ IH].
  - destruct (initial_state_spec _ _ _ _ H)
      as (Esw & _ & _ & _ & _ & (m & Hm & Egp & _) & _).
    assert (Hall : forall p : Particle, In p (swarm st0) -> well_shaped cfg p).
    { intros p Hp. rewrite Esw in Hp. apply in_initial_swarm in Hp as (k & ->).
      apply well_shaped_init. }
    split; [exact Hall|]. rewrite Egp. apply (Hall m Hm).
  - destruct IH as (Hall & Hg).
    pose proof (reachable_synchronized _ _ _ _ Hr) as Hs.
    assert (Hmid : forall p : Particle, In p (mid_step cfg objective d st) ->
                     well_shaped cfg p).
    { intros q Hq. apply in_for_particles in Hq as (p & k & Hp & ->).
      unfold update_particle.
      apply well_shaped_update_position, well_shaped_update_velocity; auto. }
    unfold iteration_body in H.
    destruct (recompute_global_best_spec (mid_step cfg objective d st)
                (global_best_position st) (global_best_value st)
                (mid_step_nonempty cfg objective d st (proj1 Hs)))
      as (m & Hm & _ & [(_ & E)|(_ & E)]); rewrite E in H; injection H as <-; simpl.
    + split; [exact Hmid|]. apply (Hmid m Hm).
    + split; [exact Hmid|exact Hg].
  - exact IH.
  - exact IH.
Qed.

(** X17: with the bounds in the wrong order ([X_MAX < X_MIN]) the clamp
    sends every coordinate to [X_MAX]: after the first iteration of a run
    every particle sits at the point [(X_MAX, ..., X_MAX)], and with at least
    two particles the diversity recorded for that iteration is zero. *)
Theorem reversed_bounds_collapse (cfg : Config) (objective : vec -> R)
    (init_draws : nat -> nat -> R) (d : step_draws) (st st1 : State) :
  X_MAX cfg < X_MIN cfg ->
  reachable cfg objective init_draws st ->
  iteration_body cfg objective d st = Ok st1 ->
  (forall p : Particle, In p (swarm st1) ->
     position p = repeat (X_MAX cfg) (NUM_DIMENSIONS cfg)) /\
  ((2 <= NUM_PARTICLES cfg)%nat -> diversity cfg (swarm st1) = Some 0).
Proof.
  intros Hrev Hr H.
  destruct (reachable_well_shaped _ _ _ _ Hr) as (Hws & Hg).
  destruct (iteration_body_bookkeeping _ _ _ _ _ H) as (Esw & _).
  assert (Hpos : forall p : Particle, In p (swarm st1) ->
                   position p = repeat (X_MAX cfg) (NUM_DIMENSIONS cfg)).
  { intros q Hq. rewrite Esw in Hq.
    apply in_for_particles in Hq as (p & k & Hp & ->).
    unfold update_particle. rewrite position_update_position.
    rewrite np_clip_reversed by assumption. f_equal.
    destruct (Hws p Hp) as (Hlp & Hlv & Hlb).
    unfold update_velocity; cbn [position velocity]. vlen. }
  split; [exact Hpos|]. intros HN.
  assert (Hr1 : reachable cfg objective init_draws st1)
    by (eapply reach_body; eassumption).
  pose proof (reachable_swarm_length _ _ _ _ Hr1) as Hlen.
  unfold diversity. rewrite pair_distances_pairs_from by now rewrite length_map.
  assert (Hzero : Forall (fun x => x = 0) (pairs_from (map position (swarm st1)))).
  { apply (pairs_from_zero (NUM_DIMENSIONS cfg)).
    - apply Forall_forall. intros a Ha. apply in_map_iff in Ha as (p & <- & Hp).
      rewrite (Hpos p Hp). apply repeat_length.
    - intros a b Ha Hb. apply in_map_iff in Ha as (p & <- & Hp).
      apply in_map_iff in Hb as (q & <- & Hq). now rewrite (Hpos p Hp), (Hpos q Hq). }
  assert (Hne : pairs_from (map position (swarm st1)) <> []).
  { intros E. pose proof (length_pairs_from (map position (swarm st1))) as Hc.
    rewrite E, length_map, Hlen in Hc. simpl in Hc. nia. }
  rewrite np_mean_some by assumption. f_equal.
  assert (Hsum : sum_list (pairs_from (map position (swarm st1))) = 0).
  { apply sum_list_zero; [|exact Hzero].
    apply pairs_from_nonneg. }
  rewrite Hsum. unfold Rdiv. apply Rmult_0_l.
Qed.

(** The first iteration of the run of the script with the bounds swapped. *)
Lemma reversed_bounds_collapse_witness :
  X_MAX reversed_bounds_config < X_MIN reversed_bounds_config /\
  exists st0 st1 : State,
    reachable reversed_bounds_config michalewicz leader_init_draws st0 /\
    iteration_body reversed_bounds_config michalewicz quarter_step_draws st0
    = Ok st1 /\
    diversity reversed_bounds_config (swarm st1) = Some 0.
Proof.
  assert (Hrev : X_MAX reversed_bounds_config < X_MIN reversed_bounds_config)
    by (simpl; apply PI_RGT_0).
  split; [exact Hrev|].
  destruct (initial_state_ok reversed_bounds_config michalewicz leader_init_draws)
    as (st0 & E0); [simpl; lia|].
  assert (Hr : reachable reversed_bounds_config michalewicz leader_init_draws st0)
    by (apply reach_init; exact E0).
  destruct (iteration_body_spec reversed_bounds_config michalewicz
              quarter_step_draws st0 (reachable_synchronized _ _ _ _ Hr))
    as (st1 & E1 & _).
  exists st0, st1. split; [exact Hr|]. split; [exact E1|].
  apply (reversed_bounds_collapse reversed_bounds_config michalewicz
           leader_init_draws quarter_step_draws st0 st1 Hrev Hr E1).
  simpl. lia.
Defined.

(** ** The size of the velocity *)

Lemma nth_update_velocity (cfg : Config) (p : Particle) (g : vec)
    (u1 u2 : nat -> R) (i : nat) :
  well_shaped cfg p -> length g = NUM_DIMENSIONS cfg ->
  (i < NUM_DIMENSIONS cfg)%nat ->
  nth i (velocity (update_velocity cfg p g u1 u2)) 0
  = INERTIA_WEIGHT cfg * nth i (velocity p) 0
    + COGNITIVE_CONST cfg * u1 i * (nth i (best_position p) 0 - nth i (position p) 0)
    + SOCIAL_CONST cfg * u2 i * (nth i g 0 - nth i (position p) 0).
Proof.
  intros (Hp & Hv & Hb) Hg Hi.
  unfold update_velocity; cbn [velocity].
  unfold vadd, vmul, vsub.
  rewrite (nth_map2 Rplus _ _ i 0 0 0) by vlen.
  rewrite (nth_map2 Rplus _ _ i 0 0 0) by vlen.
  rewrite nth_vscale by vlen.
  rewrite !(nth_map2 Rmult _ _ i 0 0 0) by vlen.
  rewrite !nth_vscale by vlen.
  rewrite !(nth_map2 Rminus _ _ i 0 0 0) by vlen.
  rewrite !nth_np_uniform by assumption. ring.
Qed.

Lemma in_bounds_nth (cfg : Config) (v : vec) (i : nat) :
  in_bounds cfg v -> (i < length v)%nat -> X_MIN cfg <= nth i v 0 <= X_MAX cfg.
Proof.
  intros H Hi. unfold in_bounds in H. rewrite Forall_forall in H.
  apply H. now apply nth_In.
Qed.

(** A pull with a coefficient between [0] and [c] towards a point of the box
    is at most [c] times the width of the box. *)
Lemma pull_bound (c u a b lo hi : R) :
  0 <= c -> 0 <= u < 1 -> lo <= a <= hi -> lo <= b <= hi ->
  Rabs (c * u * (a - b)) <= c * (hi - lo).
Proof.
  intros Hc Hu Ha Hb.
  assert (Ht : 0 <= c * u <= c) by nra.
  apply Rabs_le. split.
  - assert (c * u * (b - a) <= c * (hi - lo)); [|lra].
    destruct (Rle_dec a b).
    + apply Rle_trans with (c * (b - a)); [|nra].
      apply Rmult_le_compat_r; lra.
    + assert (c * u * (b - a) <= 0) by nra. nra.
  - destruct (Rle_dec b a).
    + apply Rle_trans with (c * (a - b)); [|nra].
      apply Rmult_le_compat_r; lra.
    + assert (c * u * (a - b) <= 0) by nra. nra.
Qed.

(** One velocity update takes a bound [b] to [|w| * b + (c1 + c2) * width]. *)
Lemma velocity_update_bound (cfg : Config) (p : Particle) (g : vec)
    (u1 u2 : nat -> R) (b : R) :
  0 <= COGNITIVE_CONST cfg -> 0 <= SOCIAL_CONST cfg ->
  (forall i : nat, 0 <= u1 i < 1) -> (forall i : nat, 0 <= u2 i < 1) ->
  well_shaped cfg p -> length g = NUM_DIMENSIONS cfg ->
  in_bounds cfg (position p) -> in_bounds cfg (best_position p) ->
  in_bounds cfg g ->
  velocity_within b p ->
  velocity_within
    (Rabs (INERTIA_WEIGHT cfg) * b
     + (COGNITIVE_CONST cfg + SOCIAL_CONST cfg) * (X_MAX cfg - X_MIN cfg))
    (update_velocity cfg p g u1 u2).
Proof.
  intros Hc1 Hc2 Hu1 Hu2 Hws Hg Hpos Hbest Hgb Hv.
  pose proof Hws as (Hlp & Hlv & Hlb).
  unfold velocity_within in *. apply Forall_nth. intros i dflt Hi.
  rewrite length_update_velocity in Hi by assumption.
  rewrite (nth_indep _ dflt 0) by now rewrite length_update_velocity.
  rewrite nth_update_velocity by assumption.
  assert (Hvi : Rabs (nth i (velocity p) 0) <= b).
  { rewrite Forall_forall in Hv. apply Hv. apply nth_In. lia. }
  pose proof (in_bounds_nth cfg _ i Hpos ltac:(lia)) as Hpi.
  pose proof (in_bounds_nth cfg _ i Hbest ltac:(lia)) as Hbi.
  pose proof (in_bounds_nth cfg _ i Hgb ltac:(lia)) as Hgi.
  pose proof (pull_bound _ _ _ _ _ _ Hc1 (Hu1 i) Hbi Hpi) as H1.
  pose proof (pull_bound _ _ _ _ _ _ Hc2 (Hu2 i) Hgi Hpi) as H2.
  assert (H0 : Rabs (INERTIA_WEIGHT cfg * nth i (velocity p) 0)
               <= Rabs (INERTIA_WEIGHT cfg) * b).
  { rewrite Rabs_mult. apply Rmult_le_compat_l; [apply Rabs_pos|exact Hvi]. }
  eapply Rle_trans; [apply Rabs_triang|].
  eapply Rle_trans; [apply Rplus_le_compat_r, Rabs_triang|]. lra.
Qed.

Lemma velocity_bound_fixed (cfg : Config) :
  Rabs (INERTIA_WEIGHT cfg) < 1 ->
  Rabs (INERTIA_WEIGHT cfg) * velocity_bound cfg
  + (COGNITIVE_CONST cfg + SOCIAL_CONST cfg) * (X_MAX cfg - X_MIN cfg)
  = velocity_bound cfg.
Proof. intros H. unfold velocity_bound. field. lra. Qed.

Lemma velocity_bound_nonneg (cfg : Config) :
  Rabs (INERTIA_WEIGHT cfg) < 1 ->
  0 <= COGNITIVE_CONST cfg -> 0 <= SOCIAL_CONST cfg -> X_MIN cfg <= X_MAX cfg ->
  0 <= velocity_bound cfg.
Proof.
  intros Hw Hc1 Hc2 Hb. unfold velocity_bound.
  apply Rmult_le_pos; [nra|]. left. apply Rinv_0_lt_compat. lra.
Qed.

Section VelocityBound.

Variable cfg : Config.
Variable objective : vec -> R.
Variable init_draws : nat -> nat -> R.
Hypothesis inertia_small : Rabs (INERTIA_WEIGHT cfg) < 1.
Hypothesis cognitive_nonneg : 0 <= COGNITIVE_CONST cfg.
Hypothesis social_nonneg : 0 <= SOCIAL_CONST cfg.
Hypothesis bounds_in_order : X_MIN cfg <= X_MAX cfg.
Hypothesis init_unit : forall k i : nat, 0 <= init_draws k i < 1.

(** The bound survives the body of an iteration made with unit draws. *)
Lemma iteration_body_velocity (d : step_draws) (st st1 : State) :
  unit_draws d ->
  reachable cfg objective init_draws st ->
  (forall p : Particle, In p (swarm st) -> velocity_within (velocity_bound cfg) p) ->
  iteration_body cfg objective d st = Ok st1 ->
  forall p : Particle, In p (swarm st1) -> velocity_within (velocity_bound cfg) p.
Proof.
  intros Hd Hr Hv H q Hq.
  destruct (iteration_body_bookkeeping _ _ _ _ _ H) as (Esw & _).
  rewrite Esw in Hq. apply in_for_particles in Hq as (p & k & Hp & ->).
  destruct (reachable_in_box cfg objective init_draws st bounds_in_order init_unit Hr)
    as (Hbox & Hg).
  destruct (Hbox p Hp) as (Hws & Hpos & Hbest & _).
  assert (Hgb : in_bounds cfg (global_best_position st)).
  { destruct (reachable_global_record _ _ _ _ Hr) as (m & Hm & <- & _).
    apply (Hbox m Hm). }
  unfold velocity_within, update_particle. rewrite velocity_update_position.
  rewrite <- (velocity_bound_fixed cfg inertia_small).
  apply velocity_update_bound; try assumption.
  - intros i. apply (Hd k i).
  - intros i. apply (Hd k i).
  - now apply Hv.
Qed.

Lemma while_loop_velocity (draws : nat -> step_draws) (remaining : nat)
    (st st' : State) :
  (forall it : nat, unit_draws (draws it)) ->
  reachable cfg objective init_draws st ->
  (forall p : Particle, In p (swarm st) -> velocity_within (velocity_bound cfg) p) ->
  while_loop cfg objective remaining draws st = Ok st' ->
  forall p : Particle, In p (swarm st') -> velocity_within (velocity_bound cfg) p.
Proof.
  intros Hd. revert st; induction remaining as [|n IH]; intros st Hr Hv H; simpl in H.
  - injection H as <-. exact Hv.
  - destruct (iteration_body cfg objective (draws (iterations st)) st)
      as [st1|e] eqn:Ebody; [|discriminate].
    pose proof (iteration_body_velocity _ _ _ (Hd _) Hr Hv Ebody) as Hv1.
    assert (Hr1 : reachable cfg objective init_draws st1)
      by (eapply reach_body; eassumption).
    destruct (stop_criterion cfg st1).
    + injection H as <-. exact Hv1.
    + apply (IH (next_iteration st1)); [now apply reach_next|exact Hv1|exact H].
Qed.

End VelocityBound.

(** X18: although the velocity is never clamped, it stays bounded: with
    [|INERTIA_WEIGHT| < 1], non-negative [COGNITIVE_CONST] and
    [SOCIAL_CONST], bounds in order and all draws in [0,1), every coordinate
    of every velocity is, when the loop is left, at most
    [(c1 + c2) * (X_MAX - X_MIN) / (1 - |w|)] in absolute value. *)
Theorem velocities_stay_bounded (cfg : Config) (objective : vec -> R)
    (init_draws : nat -> nat -> R) (draws : nat -> step_draws) (st : State) :
  Rabs (INERTIA_WEIGHT cfg) < 1 ->
  0 <= COGNITIVE_CONST cfg -> 0 <= SOCIAL_CONST cfg ->
  X_MIN cfg <= X_MAX cfg ->
  (forall k i : nat, 0 <= init_draws k i < 1) ->
  (forall it : nat, unit_draws (draws it)) ->
  pso_loop cfg objective init_draws draws = Ok st ->
  forall (p : Particle) (v : R), In p (swarm st) -> In v (velocity p) ->
    Rabs v <= (COGNITIVE_CONST cfg + SOCIAL_CONST cfg) * (X_MAX cfg - X_MIN cfg)
              / (1 - Rabs (INERTIA_WEIGHT cfg)).
Proof.
  intros Hw Hc1 Hc2 Hb Hu Hd E p v Hp Hv.
  unfold pso_loop in E.
  destruct (initial_state cfg objective init_draws) as [st0|e] eqn:E0;
    [|discriminate].
  assert (H0 : forall q : Particle, In q (swarm st0) ->
                 velocity_within (velocity_bound cfg) q).
  { destruct (initial_state_spec _ _ _ _ E0) as (Esw & _).
    intros q Hq. rewrite Esw in Hq. apply in_initial_swarm in Hq as (k & ->).
    unfold velocity_within. simpl. apply Forall_forall. intros x Hx.
    apply repeat_spec in Hx. subst x. rewrite Rabs_R0.
    now apply velocity_bound_nonneg. }
  pose proof (while_loop_velocity cfg objective init_draws Hw Hc1 Hc2 Hb Hu draws _
                st0 st Hd (reach_init _ _ _ _ E0) H0 E p Hp) as Hbound.
  unfold velocity_within in Hbound. rewrite Forall_forall in Hbound.
  now apply Hbound.
Qed.

(** The run of the script above: no velocity coordinate exceeds
    [4 * pi / (9/10)]. *)
Lemma velocities_stay_bounded_witness :
  Rabs (INERTIA_WEIGHT script_config) < 1 /\
  0 <= COGNITIVE_CONST script_config /\ 0 <= SOCIAL_CONST script_config /\
  X_MIN script_config <= X_MAX script_config /\
  (forall k i : nat, 0 <= leader_init_draws k i < 1) /\
  (forall it : nat, unit_draws quarter_step_draws) /\
  exists st : State,
    pso_loop script_config michalewicz leader_init_draws
      (fun _ => quarter_step_draws) = Ok st /\
    forall (p : Particle) (v : R), In p (swarm st) -> In v (velocity p) ->
      Rabs v <= 4 * PI / (9 / 10).
Proof.
  assert (Hw : Rabs (INERTIA_WEIGHT script_config) < 1).
  { simpl. rewrite Rabs_right; lra. }
  assert (Hb : X_MIN script_config <= X_MAX script_config).
  { simpl. pose proof PI_RGT_0. lra. }
  assert (Hd : forall it : nat, unit_draws quarter_step_draws).
  { intros _ k i. simpl. lra. }
  split; [exact Hw|]. split; [simpl; lra|]. split; [simpl; lra|].
  split; [exact Hb|]. split; [exact leader_init_draws_unit|]. split; [exact Hd|].
  destruct (pso_loop_reachable script_config michalewicz leader_init_draws
              (fun _ => quarter_step_draws)) as (st & E & _); [simpl; lia|].
  exists st. split; [exact E|]. intros p v Hp Hv.
  pose proof (velocities_stay_bounded script_config michalewicz leader_init_draws
                (fun _ => quarter_step_draws) st Hw ltac:(simpl; lra)
                ltac:(simpl; lra) Hb leader_init_draws_unit Hd E p v Hp Hv) as H.
  simpl in H. rewrite (Rabs_right (1 / 10)) in H by lra.
  replace (4 * PI / (9 / 10)) with ((2 + 2) * (PI - 0) / (1 - 1 / 10)) by (field).
  exact H.
Defined.
